(** * The Screeps path finder's support structures ([pf.h])

    A shallow embedding of the value types and containers declared in
    [native/src/pf.h]: world positions, the generation-stamped open/closed
    list, the per-room terrain and cost lookup, and the updatable binary
    heap.  Fixed-width C++ integers are integers of [Z] with the wrap-around
    of each conversion written out; [std::array]s are lists read and written
    through [read] and [write], which make an access outside the array an
    explicit [Undefined] outcome. *)

From Stdlib Require Import ZArith Lia String Sorted.

From stdpp Require Import base list.

Local Open Scope Z_scope.

(** ** Fixed-width integer conversions *)

Definition uint8 (z : Z) : Z := z mod 256.

Definition uint16 (z : Z) : Z := z mod 65536.

Definition int8 (z : Z) : Z := (z + 128) mod 256 - 128.

(** ** [world_position_t] *)

Module WorldPosition.

Inductive direction_t :=
| TOP | TOP_RIGHT | RIGHT | BOTTOM_RIGHT | BOTTOM | BOTTOM_LEFT | LEFT | TOP_LEFT.

Record world_position_t := { xx : Z; yy : Z }.

(** Both members are [uint16_t]. *)
Definition valid (p : world_position_t) : Prop :=
  0 <= xx p < 65536 /\ 0 <= yy p < 65536.

(** [world_position_t(uint16_t xx, uint16_t yy)]: the arguments are [int]
    expressions at every call site below and are converted on the way in. *)
Definition make (x y : Z) : world_position_t :=
  {| xx := uint16 x; yy := uint16 y |}.

Definition position_in_direction (p : world_position_t) (dir : direction_t)
  : world_position_t :=
  match dir with
  | TOP => make (xx p) (yy p - 1)
  | TOP_RIGHT => make (xx p + 1) (yy p - 1)
  | RIGHT => make (xx p + 1) (yy p)
  | BOTTOM_RIGHT => make (xx p + 1) (yy p + 1)
  | BOTTOM => make (xx p) (yy p + 1)
  | BOTTOM_LEFT => make (xx p - 1) (yy p + 1)
  | LEFT => make (xx p - 1) (yy p)
  | TOP_LEFT => make (xx p - 1) (yy p - 1)
  end.

(** [direction_to]: the differences are taken in [int] and stored in
    [int8_t] locals, which keep their low eight bits as a two's complement
    number.  [None] stands for the fall-through result [(direction_t)-1],
    which is no enumerator. *)
Definition direction_to (this pos : world_position_t) : option direction_t :=
  let dx := int8 (xx pos - xx this) in
  let dy := int8 (yy pos - yy this) in
  if 0 <? dx then
    if 0 <? dy then Some BOTTOM_RIGHT
    else if dy <? 0 then Some TOP_RIGHT
    else Some RIGHT
  else if dx <? 0 then
    if 0 <? dy then Some BOTTOM_LEFT
    else if dy <? 0 then Some TOP_LEFT
    else Some LEFT
  else
    if 0 <? dy then Some BOTTOM
    else if dy <? 0 then Some TOP
    else None.

(** [range_to]: operands are promoted to [int], [std::max] is taken on
    [int], and the result is converted to the [uint16_t] return type. *)
Definition range_to (this pos : world_position_t) : Z :=
  uint16 (Z.max
    (if xx this <? xx pos then xx pos - xx this else xx this - xx pos)
    (if yy this <? yy pos then yy pos - yy this else yy this - yy pos)).

(** The unit step a direction stands for, read off [position_in_direction]:
    x grows to the right, y grows to the bottom. *)
Definition horizontal (d : direction_t) : Z :=
  match d with
  | TOP_RIGHT | RIGHT | BOTTOM_RIGHT => 1
  | TOP_LEFT | LEFT | BOTTOM_LEFT => -1
  | TOP | BOTTOM => 0
  end.

Definition vertical (d : direction_t) : Z :=
  match d with
  | BOTTOM_LEFT | BOTTOM | BOTTOM_RIGHT => 1
  | TOP_LEFT | TOP | TOP_RIGHT => -1
  | LEFT | RIGHT => 0
  end.

(** What the direction-to rule promises for a pair of positions. *)
Definition matches_delta_signs (p q : world_position_t) : Prop :=
  exists d, direction_to p q = Some d
            /\ horizontal d = Z.sgn (xx q - xx p)
            /\ vertical d = Z.sgn (yy q - yy p).

(** [null()], [is_null()] and [operator!=]. *)
Definition null : world_position_t := make 0 0.

Definition is_null (p : world_position_t) : bool :=
  (xx p =? 0) && (yy p =? 0).

Definition neq (this right : world_position_t) : bool :=
  negb (xx this =? xx right) || negb (yy this =? yy right).

(** The direction pointing the other way. *)
Definition opposite (d : direction_t) : direction_t :=
  match d with
  | TOP => BOTTOM
  | TOP_RIGHT => BOTTOM_LEFT
  | RIGHT => LEFT
  | BOTTOM_RIGHT => TOP_LEFT
  | BOTTOM => TOP
  | BOTTOM_LEFT => TOP_RIGHT
  | LEFT => RIGHT
  | TOP_LEFT => BOTTOM_RIGHT
  end.

End WorldPosition.

(** ** Outcomes of a call

    A member function returns, throws, runs into undefined behaviour (an
    access outside a [std::array] or a pointed-to buffer), or is still
    looping when the fuel given to one of its loops is used up. *)

Inductive outcome (A : Type) : Type :=
| Returned (a : A)
| Thrown (what : string)
| Undefined
| OutOfFuel.

Arguments Returned {A} a.

Arguments Thrown {A} what.

Arguments Undefined {A}.

Arguments OutOfFuel {A}.

Global Instance outcome_ret : MRet outcome := @Returned.

Global Instance outcome_bind : MBind outcome := fun A B f m =>
  match m with
  | Returned a => f a
  | Thrown w => Thrown w
  | Undefined => Undefined
  | OutOfFuel => OutOfFuel
  end.

Global Instance outcome_fmap : FMap outcome := fun A B f m =>
  match m with
  | Returned a => Returned (f a)
  | Thrown w => Thrown w
  | Undefined => Undefined
  | OutOfFuel => OutOfFuel
  end.

(** [a[i]] as an rvalue and [a[i] = v], for an unsigned index [i]. *)
Definition read {A : Type} (a : list A) (i : Z) : outcome A :=
  if i <? 0 then Undefined
  else match a !! Z.to_nat i with
       | Some v => Returned v
       | None => Undefined
       end.

Definition write {A : Type} (a : list A) (i : Z) (v : A) : outcome (list A) :=
  if (0 <=? i) && (i <? Z.of_nat (length a))
  then Returned (<[Z.to_nat i := v]> a)
  else Undefined.

(** The element an in-range read returns. *)
Definition at_ (a : list Z) (i : Z) : Z := a !!! Z.to_nat i.

(** ** [open_closed_t<capacity>] *)

Module OpenClosed.

(** [unsigned int] is 32 bits wide. *)
Definition UINT_MAX : Z := 4294967295.

Definition uint (z : Z) : Z := z mod 4294967296.

(** The array member is called [list] in the source. *)
Record open_closed_t := { list_ : list Z; marker : Z }.

(** [open_closed_t() : list{}, marker(1)] *)
Definition make (capacity : nat) : open_closed_t :=
  {| list_ := replicate capacity 0; marker := 1 |}.

Definition clear (s : open_closed_t) : open_closed_t :=
  if UINT_MAX - 2 <=? marker s then
    {| list_ := replicate (length (list_ s)) 0; marker := 1 |}
  else
    {| list_ := list_ s; marker := uint (marker s + 2) |}.

Definition is_open (s : open_closed_t) (index : Z) : outcome bool :=
  v ← read (list_ s) index;
  mret (v =? marker s).

Definition is_closed (s : open_closed_t) (index : Z) : outcome bool :=
  v ← read (list_ s) index;
  mret (v =? uint (marker s + 1)).

Definition open (s : open_closed_t) (index : Z) : outcome open_closed_t :=
  l ← write (list_ s) index (marker s);
  mret {| list_ := l; marker := marker s |}.

Definition close (s : open_closed_t) (index : Z) : outcome open_closed_t :=
  l ← write (list_ s) index (uint (marker s + 1));
  mret {| list_ := l; marker := marker s |}.

(** The states an instance of the given capacity goes through under any
    sequence of calls that stay inside the array. *)
Inductive reachable (capacity : nat) : open_closed_t -> Prop :=
| reach_make : reachable capacity (make capacity)
| reach_open s index s' :
    reachable capacity s -> open s index = Returned s' -> reachable capacity s'
| reach_close s index s' :
    reachable capacity s -> close s index = Returned s' -> reachable capacity s'
| reach_clear s :
    reachable capacity s -> reachable capacity (clear s).

(** Every stamp in the array is at most the current closed stamp, and the
    closed stamp itself does not wrap. *)
Record stamps_ok (capacity : nat) (s : open_closed_t) : Prop := {
  stamps_length : length (list_ s) = capacity;
  stamps_marker : 1 <= marker s <= UINT_MAX - 1;
  stamps_bound : forall v, v ∈ list_ s -> 0 <= v <= marker s + 1
}.

(** An instance of capacity 4 in its second generation: index 1 was opened
    and index 2 closed before a [clear], then index 3 was opened and index
    0 closed. *)
Definition visited : open_closed_t :=
  {| list_ := [4; 1; 2; 3]; marker := 3 |}.

End OpenClosed.

(** ** [map_position_t] and [room_info_t] *)

Module MapPosition.

(** Two [uint8_t] members overlaid on a [uint16_t] id. *)
Record map_position_t := { xx : Z; yy : Z }.

Definition id (p : map_position_t) : Z := xx p + 256 * yy p.

(** [map_position_t(uint8_t xx, uint8_t yy)] *)
Definition make (x y : Z) : map_position_t :=
  {| xx := uint8 x; yy := uint8 y |}.

(** Both members are [uint8_t]. *)
Definition valid (p : map_position_t) : Prop :=
  0 <= xx p < 256 /\ 0 <= yy p < 256.

(** [operator==] and [operator<] compare the ids. *)
Definition eq_ (this right : map_position_t) : bool := id this =? id right.

Definition lt (this right : map_position_t) : bool := id this <? id right.

(** [hash_t] hashes the id; [std::hash<uint16_t>] is left as a parameter. *)
Definition hash (std_hash : Z -> Z) (val : map_position_t) : Z :=
  std_hash (id val).

(** [path_finder_t::map_position_size], the length of the arrays indexed by
    an id: [1 << sizeof(map_position_t) * 8] with [sizeof(map_position_t)]
    being 2. *)
Definition map_position_size : Z := Z.shiftl 1 (2 * 8).

End MapPosition.

(** [world_position_t::map_position], the room a tile lies in. *)
Module WorldRoom.

Definition map_position (p : WorldPosition.world_position_t)
  : MapPosition.map_position_t :=
  MapPosition.make (WorldPosition.xx p / 50) (WorldPosition.yy p / 50).

(** The part of the plane the 256 x 256 rooms of 50 x 50 tiles cover. *)
Definition on_map (p : WorldPosition.world_position_t) : Prop :=
  0 <= WorldPosition.xx p < 12800 /\ 0 <= WorldPosition.yy p < 12800.

End WorldRoom.

Module RoomInfo.

(** [terrain] and [cost_matrix] are pointers; each is modelled by the
    buffer it points to, and a read outside that buffer is [Undefined]. *)
Record room_info_t := {
  terrain : list Z;
  cost_matrix : list Z;
  pos : MapPosition.map_position_t
}.

(** Modelled from the spec: the header only declares the static member
    [cost_matrix0[2500]]; its definition is in a translation unit that is
    not part of the sources.  The spec says the default cost matrix is all
    zero, which is also what static storage without an initialiser holds. *)
Definition cost_matrix0 : list Z := replicate 2500 0.

(** [room_info_t(terrain, cost_matrix, pos)]; [None] is the null pointer. *)
Definition make (terrain : list Z) (cost_matrix : option (list Z))
    (pos : MapPosition.map_position_t) : room_info_t :=
  {| terrain := terrain;
     cost_matrix := match cost_matrix with
                    | None => cost_matrix0
                    | Some m => m
                    end;
     pos := pos |}.

(** [cost_matrix] points to rows of 50 bytes, so [cost_matrix[xx][yy]] is
    the byte at offset [xx * 50 + yy].  In the last line [>>] binds
    tighter than [&]. *)
Definition look (r : room_info_t) (xx yy : Z) : outcome Z :=
  c ← read (cost_matrix r) (xx * 50 + yy);
  if negb (c =? 0) then mret c
  else
    let index := uint16 (xx * 50 + yy) in
    t ← read (terrain r) (index / 4);
    mret (uint8 (Z.land 3 (Z.shiftr t (index mod 4 * 2)))).

(** A room over complete buffers: 2500 cost bytes, 2500 tiles of terrain
    packed four to a byte. *)
Definition complete (r : room_info_t) : Prop :=
  Z.of_nat (length (cost_matrix r)) = 2500
  /\ Z.of_nat (length (terrain r)) = 625.

(** The two-bit terrain code of a tile index, spelled out bit by bit. *)
Definition terrain_code (terrain : list Z) (index : Z) : Z :=
  let byte := at_ terrain (index / 4) in
  Z.b2z (Z.testbit byte (index mod 4 * 2))
  + 2 * Z.b2z (Z.testbit byte (index mod 4 * 2 + 1)).

(** A room whose last tile is swamp and whose tile (0, 1) costs 7. *)
Definition sample_terrain : list Z := replicate 624 0 ++ [128].

Definition sample_costs : list Z := [0; 7] ++ replicate 2498 0.

Definition sample_pos : MapPosition.map_position_t :=
  {| MapPosition.xx := 129; MapPosition.yy := 126 |}.

End RoomInfo.

(** ** [heap_t<index_t, priority_t, capacity>] *)

Module Heap.

(** [size_t] is 64 bits wide. *)
Definition usize (z : Z) : Z := z mod 18446744073709551616.

(** The slot array is a [std::array<index_t, 2500>] whatever [capacity]
    is; [heap_slots] is its [size()]. *)
Definition heap_slots : Z := 2500.

(** The number of tiles the path finder instantiates [capacity] with:
    [2500 * k_max_rooms]. *)
Definition tile_cap : Z := 2500 * 16.

Record heap_t := {
  priorities : list Z;
  heap : list Z;
  size_ : Z
}.

(** [heap_t() : size_(0)]: both arrays start with whatever they hold. *)
Definition make (priorities0 heap0 : list Z) : heap_t :=
  {| priorities := priorities0; heap := heap0; size_ := 0 |}.

Definition empty (h : heap_t) : bool := size_ h =? 0.

Definition priority (h : heap_t) (index : Z) : outcome Z :=
  read (priorities h) index.

Definition clear (h : heap_t) : heap_t :=
  {| priorities := priorities h; heap := heap h; size_ := 0 |}.

(** [std::swap(heap[a], heap[b])] *)
Definition swap (hp : list Z) (a b : Z) : outcome (list Z) :=
  x ← read hp a;
  y ← read hp b;
  hp1 ← write hp a y;
  write hp1 b x.

(** [priorities[heap[i]]] *)
Definition key (prio hp : list Z) (i : Z) : outcome Z :=
  x ← read hp i;
  read prio x.

(** The [while (ii != 1)] loop of [bubble_up]; one unit of fuel per test
    of the loop condition. *)
Fixpoint bubble_up_loop (fuel : nat) (prio hp : list Z) (ii : Z)
  : outcome (list Z) :=
  match fuel with
  | O => OutOfFuel
  | S fuel' =>
      if negb (ii =? 1) then
        a ← key prio hp ii;
        b ← key prio hp (Z.shiftr ii 1);
        if a <=? b then
          hp' ← swap hp ii (Z.shiftr ii 1);
          bubble_up_loop fuel' prio hp' (Z.shiftr ii 1)
        else mret hp
      else mret hp
  end.

(** [ii] halves on every round, so the fuel handed over is enough from
    any [ii >= 1] ([bubble_up_loop_fuel]); from [ii = 0] the loop never
    ends, whatever the fuel ([bubble_up_loop_zero]). *)
Definition bubble_up (h : heap_t) (ii : Z) : outcome heap_t :=
  hp ← bubble_up_loop (S (Z.to_nat ii)) (priorities h) (heap h) ii;
  mret {| priorities := priorities h; heap := hp; size_ := size_ h |}.

(** The child selection inside the [do] loop of [pop]: the new [vv]. *)
Definition pop_select (prio hp : list Z) (size uu : Z) : outcome Z :=
  let left := usize (Z.shiftl uu 1) in
  let right := usize (left + 1) in
  if right <=? size then
    pu ← key prio hp uu;
    pl ← key prio hp left;
    let vv := if pu >=? pl then left else uu in
    pv ← key prio hp vv;
    pr ← key prio hp right;
    mret (if pv >=? pr then right else vv)
  else if left <=? size then
    pu ← key prio hp uu;
    pl ← key prio hp left;
    mret (if pu >=? pl then left else uu)
  else mret uu.

(** The [do ... while (true)] loop of [pop]; one unit of fuel per round. *)
Fixpoint pop_loop (fuel : nat) (prio hp : list Z) (size vv : Z)
  : outcome (list Z) :=
  match fuel with
  | O => OutOfFuel
  | S fuel' =>
      let uu := vv in
      vv' ← pop_select prio hp size uu;
      if negb (uu =? vv') then
        hp' ← swap hp uu vv';
        pop_loop fuel' prio hp' size vv'
      else mret hp
  end.

(** [vv] grows on every round but the last and stays inside the slot
    array as long as the reads are defined, so a round for every slot and
    one more are enough ([pop_loop_fuel]). *)
Definition pop (h : heap_t) : outcome ((Z * Z) * heap_t) :=
  top ← read (heap h) 1;
  top_priority ← read (priorities h) top;
  last ← read (heap h) (size_ h);
  hp ← write (heap h) 1 last;
  let size := usize (size_ h - 1) in
  hp' ← pop_loop (S (length hp)) (priorities h) hp size 1;
  mret ((top, top_priority),
        {| priorities := priorities h; heap := hp'; size_ := size |}).

Definition insert (h : heap_t) (index priority : Z) : outcome heap_t :=
  if size_ h =? heap_slots - 1 then Thrown "Max heap"
  else
    prio ← write (priorities h) index priority;
    let size := usize (size_ h + 1) in
    hp ← write (heap h) size index;
    bubble_up {| priorities := prio; heap := hp; size_ := size |} size.

(** The [for (ii = size_; ii > 0; --ii)] scan of [update], by recursion
    on [ii]. *)
Fixpoint update_scan (ii : nat) (h : heap_t) (index priority : Z)
  : outcome heap_t :=
  match ii with
  | O => mret h
  | S ii' =>
      x ← read (heap h) (Z.of_nat ii);
      if x =? index then
        prio ← write (priorities h) index priority;
        bubble_up {| priorities := prio; heap := heap h; size_ := size_ h |}
                  (Z.of_nat ii)
      else update_scan ii' h index priority
  end.

Definition update (h : heap_t) (index priority : Z) : outcome heap_t :=
  update_scan (Z.to_nat (size_ h)) h index priority.

(** *** What callers rely on *)

(** The indices stored in slots [1 .. size]. *)
Definition entries_of (hp : list Z) (size : Z) : list Z :=
  take (Z.to_nat size) (drop 1 hp).

Definition entries (h : heap_t) : list Z := entries_of (heap h) (size_ h).

(** Priority of the entry in slot [i], for slots known to be in range. *)
Definition key_at (prio hp : list Z) (i : Z) : Z := at_ prio (at_ hp i).

(** The min-heap order: no slot holds a smaller priority than its parent. *)
Definition ordered (prio hp : list Z) (size : Z) : Prop :=
  forall i, 2 <= i <= size -> key_at prio hp (i / 2) <= key_at prio hp i.

Definition heap_ordered (h : heap_t) : Prop :=
  ordered (priorities h) (heap h) (size_ h).

(** An instance for [capacity] indices: array sizes as declared, occupancy
    within the slot array, stored indices within [priorities]. *)
Record well_formed (capacity : Z) (h : heap_t) : Prop := {
  wf_priorities : Z.of_nat (length (priorities h)) = capacity;
  wf_heap : Z.of_nat (length (heap h)) = heap_slots;
  wf_size : 0 <= size_ h <= heap_slots - 1;
  wf_entries : Forall (fun x => 0 <= x < capacity) (entries h)
}.

(** Inserting a list of (index, priority) pairs, one call after another. *)
Fixpoint insert_all (h : heap_t) (l : list (Z * Z)) : outcome heap_t :=
  match l with
  | [] => mret h
  | (index, priority) :: l' =>
      h' ← insert h index priority;
      insert_all h' l'
  end.

(** *** Slots, swaps and stored entries *)

Definition swapped (hp : list Z) (a b : Z) : list Z :=
  <[Z.to_nat b := at_ hp a]> (<[Z.to_nat a := at_ hp b]> hp).

(** Indices stored in the occupied slots are valid positions of
    [priorities]. *)
Definition indices_ok (prio hp : list Z) (size : Z) : Prop :=
  Forall (fun x => 0 <= x < Z.of_nat (length prio)) (entries_of hp size).

(** *** Heap order over a key function

    The order arguments only look at the priority found through each
    slot, so they are made over a function from slots to priorities. *)

Definition ordered_keys (k : Z -> Z) (size : Z) : Prop :=
  forall i, 2 <= i <= size -> k (i / 2) <= k i.

(** Ordered except between [ii] and its parent; the children of [ii] are
    already above that parent. *)
Definition up_ok (k : Z -> Z) (size ii : Z) : Prop :=
  (forall i, 2 <= i <= size -> i <> ii -> k (i / 2) <= k i)
  /\ (forall i, 2 <= i <= size -> i / 2 = ii -> 2 <= ii -> k (ii / 2) <= k i).

(** Ordered except between [vv] and its children; those children are
    already above the parent of [vv]. *)
Definition down_ok (k : Z -> Z) (size vv : Z) : Prop :=
  (forall i, 2 <= i <= size -> i / 2 <> vv -> k (i / 2) <= k i)
  /\ (forall i, 2 <= i <= size -> i / 2 = vv -> 2 <= vv -> k (vv / 2) <= k i).

(** The keys after the entries of slots [a] and [b] changed places. *)
Definition exchanged (k k' : Z -> Z) (size a b : Z) : Prop :=
  forall i, 1 <= i <= size ->
    k' i = if i =? a then k b else if i =? b then k a else k i.

(** Array accesses either return or are undefined; they never throw and
    take no fuel. *)
Definition plain {A : Type} (o : outcome A) : Prop :=
  (exists a, o = Returned a) \/ o = Undefined.

(** *** Checking a given heap *)

Definition orderedb (prio hp : list Z) (size : Z) : bool :=
  forallb (fun j => let i := Z.of_nat j in
                    key_at prio hp (i / 2) <=? key_at prio hp i)
          (seq 2 (Z.to_nat size - 1)).

(** The value a call returned, [d] if it did not return. *)
Definition returned_or {A : Type} (d : A) (o : outcome A) : A :=
  match o with
  | Returned a => a
  | _ => d
  end.

Definition is_returned {A : Type} (o : outcome A) : bool :=
  match o with
  | Returned _ => true
  | _ => false
  end.

(** A fresh instance as the path finder declares it, over zeroed storage. *)
Definition fresh : heap_t :=
  make (replicate (Z.to_nat tile_cap) 0) (replicate (Z.to_nat heap_slots) 0).

(** Six inserts; index 0 is inserted twice. *)
Definition twice_stored : heap_t :=
  returned_or fresh
    (insert_all fresh [(3, 10); (1, 28); (4, 30); (0, 50); (5, 90); (0, 50)]).

(** Six inserts of six different indices. *)
Definition six_stored : heap_t :=
  returned_or fresh
    (insert_all fresh [(3, 10); (1, 28); (4, 30); (0, 50); (5, 90); (7, 50)]).

(** *** How a search uses the heap *)

(** [n] calls of [pop] in a row, collecting what they return. *)
Fixpoint pop_all (n : nat) (h : heap_t) : outcome (list (Z * Z) * heap_t) :=
  match n with
  | O => mret ([], h)
  | S n' =>
      '(e, h1) ← pop h;
      '(l, h2) ← pop_all n' h1;
      mret (e :: l, h2)
  end.

(** The states an instance reaches when it is used the way an A* search
    uses it: an index is inserted only while it is not stored, [pop] is
    called only on a non-empty heap, and [update] only lowers the priority
    of a stored index. *)
Inductive legal (capacity : Z) : heap_t -> Prop :=
| legal_make priorities0 heap0 :
    Z.of_nat (length priorities0) = capacity ->
    Z.of_nat (length heap0) = heap_slots ->
    legal capacity (make priorities0 heap0)
| legal_insert h index priority h' :
    legal capacity h -> index ∉ entries h ->
    insert h index priority = Returned h' -> legal capacity h'
| legal_pop h e h' :
    legal capacity h -> empty h = false ->
    pop h = Returned (e, h') -> legal capacity h'
| legal_update h index old priority h' :
    legal capacity h -> index ∈ entries h ->
    Heap.priority h index = Returned old -> priority <= old ->
    update h index priority = Returned h' -> legal capacity h'
| legal_clear h :
    legal capacity h -> legal capacity (clear h).

(** An empty instance whose slot 0 holds an index of lower priority than
    those left in slots 2 and 3. *)
Definition stale : heap_t :=
  make ([0; 5; 9; 9] ++ replicate 12 0)
       ([0; 1; 2; 3] ++ replicate (Z.to_nat 2496) 0).

(** [index] sits in exactly one of the occupied slots. *)
Definition stored_once (h : heap_t) (index : Z) : Prop :=
  exists slot,
    1 <= slot <= size_ h /\ at_ (heap h) slot = index
    /\ forall other, 1 <= other <= size_ h ->
                     at_ (heap h) other = index -> other = slot.

(** Four inserts; index 3 is inserted twice, indices 5 and 4 once. *)
Definition other_twice : heap_t :=
  returned_or fresh
    (insert_all fresh [(3, 10); (3, 10); (5, 20); (4, 30)]).

(** An instance for 16 indices and what a short search makes of it: three
    inserts, an update of index 4 from 30 to 5, and a pop. *)
Definition small : heap_t :=
  make (replicate 16 0) (replicate (Z.to_nat heap_slots) 0).

Definition small1 : heap_t := returned_or small (insert small 3 10).

Definition small2 : heap_t := returned_or small (insert small1 1 28).

Definition small3 : heap_t := returned_or small (insert small2 4 30).

Definition small4 : heap_t := returned_or small (update small3 4 5).

Definition small5 : heap_t := (returned_or ((0, 0), small) (pop small4)).2.

End Heap.

(** ** [IsolateHolder] ([isolate/holder.cc])

    The holder owns a [shared_ptr] to an isolate environment.  What it does
    to the environment, to its scheduler and to a task are calls into code
    outside the file; they are recorded in the order they are made.  The
    methods are modelled for one caller at a time. *)

Module IsolateHolder.

(** Environments and tasks are identified by their address. *)
Inductive event :=
| Terminate (env : nat)
| RunTask (task : nat)
| PushTask (env task : nat)
| PushHandleTask (env task : nat)
| WakeIsolate (env : nat).

(** [isolate] is the member of that name, [None] the empty pointer. *)
Record holder := { isolate : option nat; calls : list event }.

Definition make (env : option nat) : holder :=
  {| isolate := env; calls := [] |}.

(** [Dispose]: the exchange empties the member in either branch. *)
Definition Dispose (s : holder) : outcome unit * holder :=
  match isolate s with
  | Some env =>
      (Returned tt, {| isolate := None; calls := calls s ++ [Terminate env] |})
  | None =>
      (Thrown "Isolate is already disposed",
       {| isolate := None; calls := calls s |})
  end.

Definition GetIsolate (s : holder) : option nat := isolate s.

(** [ScheduleTask]; [current] is what [IsolateEnvironment::GetCurrent()]
    returns. *)
Definition ScheduleTask (current : option nat) (s : holder) (task : nat)
    (run_inline wake_isolate handle_task : bool) : holder :=
  match isolate s with
  | Some env =>
      if run_inline && bool_decide (current = Some env) then
        {| isolate := isolate s; calls := calls s ++ [RunTask task] |}
      else
        {| isolate := isolate s;
           calls := calls s
                    ++ [if handle_task then PushHandleTask env task
                        else PushTask env task]
                    ++ (if wake_isolate then [WakeIsolate env] else []) |}
  | None => s
  end.

(** A call of one of the three methods. *)
Inductive call :=
| CallDispose
| CallGetIsolate
| CallScheduleTask (current : option nat) (task : nat)
    (run_inline wake_isolate handle_task : bool).

Definition step (s : holder) (c : call) : holder :=
  match c with
  | CallDispose => (Dispose s).2
  | CallGetIsolate => s
  | CallScheduleTask current task run_inline wake_isolate handle_task =>
      ScheduleTask current s task run_inline wake_isolate handle_task
  end.

Definition run (s : holder) (cs : list call) : holder := foldl step s cs.

Definition is_terminate (e : event) : bool :=
  match e with
  | Terminate _ => true
  | _ => false
  end.



End IsolateHolder.

(** ** [ScriptHandle] ([script_handle.cc])

    [Run] and [Release]; [ThreePhaseTask::Run], which [Run] hands the task
    to, is outside the file and is a parameter. *)

Module ScriptHandle.

(** What [Run] asks of the value of the [timeout] option. *)
Inductive js_value :=
| JsUndefined
| JsUint32 (value : Z)
| JsOther.

(** The options object, as [Run] reads it: the answer of [IsOptionSet] for
    "release" and the value of "timeout"; both reads are taken to
    succeed. *)
Record options := { release : bool; timeout : js_value }.

(** [script] is the member of that name, [None] after [reset()];
    [dispatched] lists the calls of [ThreePhaseTask::Run] with the script
    and the timeout handed over. *)
Record handle := { script : option nat; dispatched : list (nat * Z) }.

Definition Release (h : handle) : handle :=
  {| script := None; dispatched := dispatched h |}.

(** A call of [Run] with its options, or of [Release]. *)
Inductive call :=
| CallRun (maybe_options : option options)
| CallRelease.

(** [Run<async>]; [task script timeout_ms] is what
    [ThreePhaseTask::Run<async, RunRunner>] returns or throws. *)
Definition Run {V : Type} (task : nat -> Z -> outcome V) (h : handle)
    (maybe_options : option options) : outcome V * handle :=
  match script h with
  | None => (Thrown "Script has been released", h)
  | Some script_ref =>
      let parsed :=
        match maybe_options with
        | Some o =>
            match timeout o with
            | JsUndefined => Returned (release o, 0)
            | JsUint32 value => Returned (release o, value)
            | JsOther => Thrown "`timeout` must be integer"
            end
        | None => Returned (false, 0)
        end in
      match parsed with
      | Returned (release, timeout_ms) =>
          (task script_ref timeout_ms,
           {| script := if release then None else script h;
              dispatched := dispatched h ++ [(script_ref, timeout_ms)] |})
      | Thrown what => (Thrown what, h)
      | Undefined => (Undefined, h)
      | OutOfFuel => (OutOfFuel, h)
      end
  end.

Definition step {V : Type} (task : nat -> Z -> outcome V) (h : handle)
    (c : call) : handle :=
  match c with
  | CallRun maybe_options => (Run task h maybe_options).2
  | CallRelease => Release h
  end.

Definition run {V : Type} (task : nat -> Z -> outcome V) (h : handle)
    (cs : list call) : handle :=
  foldl (step task) h cs.

End ScriptHandle.

(** * Properties *)

(** ** Integer conversions in range *)

Lemma uint16_small z : 0 <= z < 65536 -> uint16 z = z.
Proof. intros Hz. unfold uint16. apply Z.mod_small. exact Hz. Qed.

Lemma uint8_small z : 0 <= z < 256 -> uint8 z = z.
Proof. intros Hz. unfold uint8. apply Z.mod_small. exact Hz. Qed.

Lemma int8_small z : -128 <= z <= 127 -> int8 z = z.
Proof. intros Hz. unfold int8. rewrite Z.mod_small; lia. Qed.

(** ** Positions *)

Module WorldPositionFacts.

Import WorldPosition.

Lemma position_in_direction_step p d :
  xx (position_in_direction p d) = uint16 (xx p + horizontal d)
  /\ yy (position_in_direction p d) = uint16 (yy p + vertical d).
Proof.
  destruct d; simpl; split; f_equal; lia.
Qed.

Example direction_to_below_right :
  direction_to (make 10 10) (make 13 11) = Some BOTTOM_RIGHT.
Proof. reflexivity. Qed.

(** C10: neighbour stepping is arithmetic modulo 2^16: from a position
    with [yy = 0] the TOP neighbour has [yy = 65535], from a position with
    [xx = 0] the LEFT neighbour has [xx = 65535]; no clamping, no
    rejection, and in general each coordinate is the old one plus the unit
    step, reduced modulo 65536. *)
Theorem position_in_direction_wraps (p : world_position_t) :
  (yy p = 0 -> yy (position_in_direction p TOP) = 65535)
  /\ (xx p = 0 -> xx (position_in_direction p LEFT) = 65535)
  /\ (forall d,
         xx (position_in_direction p d) = (xx p + horizontal d) mod 65536
         /\ yy (position_in_direction p d) = (yy p + vertical d) mod 65536).
Proof.
  split; [|split].
  - intros Hy. simpl. rewrite Hy. reflexivity.
  - intros Hx. simpl. rewrite Hx. reflexivity.
  - intros d. apply position_in_direction_step.
Qed.

Lemma position_in_direction_wraps_witness :
  yy (make 7 0) = 0 /\ xx (make 0 7) = 0
  /\ yy (position_in_direction (make 7 0) TOP) = 65535
  /\ xx (position_in_direction (make 0 7) LEFT) = 65535.
Proof.
  split; [reflexivity|]. split; [reflexivity|]. split.
  - exact (proj1 (position_in_direction_wraps (make 7 0)) eq_refl).
  - exact (proj1 (proj2 (position_in_direction_wraps (make 0 7))) eq_refl).
Defined.

(** C9: on [uint16_t] coordinates [range_to] is exactly the Chebyshev
    distance, the larger of the two absolute coordinate differences, and
    so it is symmetric. *)
Theorem range_to_chebyshev (a b : world_position_t) :
  valid a -> valid b ->
  range_to a b = Z.max (Z.abs (xx a - xx b)) (Z.abs (yy a - yy b))
  /\ range_to a b = range_to b a.
Proof.
  intros [Hax Hay] [Hbx Hby].
  assert (Hgen : forall p q, valid p -> valid q ->
    range_to p q = Z.max (Z.abs (xx p - xx q)) (Z.abs (yy p - yy q))).
  { intros p q [Hpx Hpy] [Hqx Hqy]. unfold range_to.
    destruct (Z.ltb_spec (xx p) (xx q)), (Z.ltb_spec (yy p) (yy q));
      rewrite uint16_small by lia; lia. }
  split.
  - apply Hgen; split; assumption.
  - rewrite !Hgen by (split; assumption). lia.
Qed.

Lemma range_to_chebyshev_witness :
  valid (make 3 65535) /\ valid (make 40 0)
  /\ range_to (make 3 65535) (make 40 0) = 65535
  /\ range_to (make 3 65535) (make 40 0) = range_to (make 40 0) (make 3 65535).
Proof.
  assert (Ha : valid (make 3 65535)) by (vm_compute; intuition discriminate).
  assert (Hb : valid (make 40 0)) by (vm_compute; intuition discriminate).
  split; [exact Ha|]. split; [exact Hb|].
  exact (range_to_chebyshev (make 3 65535) (make 40 0) Ha Hb).
Defined.

(** C2, as amended: when both coordinate differences fit the [int8_t]
    locals (each lies in [-128, 127]) and the positions differ,
    [direction_to] returns the direction whose horizontal and vertical
    components are the signs of the two differences. *)
Theorem direction_to_signs (p q : world_position_t) :
  -128 <= xx q - xx p <= 127 ->
  -128 <= yy q - yy p <= 127 ->
  (xx p <> xx q \/ yy p <> yy q) ->
  matches_delta_signs p q.
Proof.
  intros Hx Hy Hne. unfold matches_delta_signs, direction_to.
  rewrite !int8_small by assumption.
  destruct (Z.ltb_spec 0 (xx q - xx p)), (Z.ltb_spec (xx q - xx p) 0),
           (Z.ltb_spec 0 (yy q - yy p)), (Z.ltb_spec (yy q - yy p) 0);
    try lia; eexists; (split; [reflexivity|]); simpl; lia.
Qed.

Lemma direction_to_signs_witness :
  direction_to (make 10 10) (make 13 9) = Some TOP_RIGHT
  /\ matches_delta_signs (make 10 10) (make 13 9).
Proof.
  split; [reflexivity|].
  apply (direction_to_signs (make 10 10) (make 13 9)).
  - vm_compute. intuition discriminate.
  - vm_compute. intuition discriminate.
  - left. vm_compute. discriminate.
Defined.

(** C2, as stated, fails: 128 tiles to the right the [int8_t] difference
    is -128 and the answer is LEFT; 256 tiles to the right it is 0 and the
    answer is no direction at all. *)
Lemma direction_to_far_counterexample :
  let p := make 0 0 in
  let q := make 128 0 in
  let r := make 256 0 in
  valid p /\ valid q /\ valid r
  /\ xx p <> xx q /\ xx p <> xx r
  /\ direction_to p q = Some LEFT
  /\ direction_to p r = None
  /\ ~ matches_delta_signs p q
  /\ ~ matches_delta_signs p r.
Proof.
  cbv zeta.
  repeat split; try (vm_compute; congruence).
  - intros (d & Hd & Hh & _). vm_compute in Hd. injection Hd as <-.
    vm_compute in Hh. discriminate.
  - intros (d & Hd & _). vm_compute in Hd. discriminate.
Qed.

(** *** Steps, directions and ranges together *)

Lemma unit_step (d : direction_t) :
  -1 <= horizontal d <= 1 /\ -1 <= vertical d <= 1.
Proof. destruct d; simpl; lia. Qed.

Lemma int8_of_wrapped_step (x h : Z) :
  0 <= x < 65536 -> -1 <= h <= 1 -> int8 (uint16 (x + h) - x) = h.
Proof.
  intros Hx Hh. unfold int8, uint16.
  assert (Hw : (x + h) mod 65536 = x + h
               \/ (x + h) mod 65536 = x + h - 65536
               \/ (x + h) mod 65536 = x + h + 65536).
  { pose proof (Z.mod_pos_bound (x + h) 65536 ltac:(lia)).
    pose proof (Z.div_mod (x + h) 65536 ltac:(lia)).
    assert (-1 <= (x + h) / 65536 <= 1) by nia. lia. }
  destruct Hw as [-> | [-> | ->]].
  - replace (x + h - x + 128) with (h + 128) by lia.
    rewrite Z.mod_small; lia.
  - replace (x + h - 65536 - x + 128) with (h + 128 + (-256) * 256) by lia.
    rewrite Z.mod_add by lia. rewrite Z.mod_small; lia.
  - replace (x + h + 65536 - x + 128) with (h + 128 + 256 * 256) by lia.
    rewrite Z.mod_add by lia. rewrite Z.mod_small; lia.
Qed.

Lemma direction_of_unit_deltas (p q : world_position_t) (d : direction_t) :
  int8 (xx q - xx p) = horizontal d -> int8 (yy q - yy p) = vertical d ->
  direction_to p q = Some d.
Proof.
  intros Hh Hv. unfold direction_to. rewrite Hh, Hv.
  destruct d; reflexivity.
Qed.

(** X1: the direction from a position to its neighbour in direction [d] is
    [d], for every position and every direction, also when the step wraps
    around the coordinate plane. *)
Theorem direction_to_neighbour (p : world_position_t) (d : direction_t) :
  valid p -> direction_to p (position_in_direction p d) = Some d.
Proof.
  intros [Hx Hy].
  destruct (position_in_direction_step p d) as [Hsx Hsy].
  destruct (unit_step d) as [Hh Hv].
  apply direction_of_unit_deltas.
  - rewrite Hsx. apply int8_of_wrapped_step; assumption.
  - rewrite Hsy. apply int8_of_wrapped_step; assumption.
Qed.

Lemma direction_to_neighbour_witness :
  valid (make 65535 0)
  /\ direction_to (make 65535 0) (position_in_direction (make 65535 0) TOP_RIGHT)
     = Some TOP_RIGHT.
Proof.
  assert (Hv : valid (make 65535 0)) by (vm_compute; intuition discriminate).
  split; [exact Hv|].
  exact (direction_to_neighbour (make 65535 0) TOP_RIGHT Hv).
Defined.

Lemma wrapped_step_back (x h : Z) :
  0 <= x < 65536 -> uint16 (uint16 (x + h) - h) = x.
Proof.
  intros Hx. unfold uint16.
  rewrite Zminus_mod_idemp_l.
  replace (x + h - h) with x by lia. apply Z.mod_small. exact Hx.
Qed.

(** X2: a step followed by the step in the opposite direction leads back
    to the starting position, for every position on the plane; the
    wrap-around of one step is undone by the other. *)
Theorem step_there_and_back (p : world_position_t) (d : direction_t) :
  valid p ->
  position_in_direction (position_in_direction p d) (opposite d) = p.
Proof.
  intros [Hx Hy]. destruct p as [x y]. simpl in *.
  pose proof (wrapped_step_back x 1 Hx) as Hx1.
  pose proof (wrapped_step_back x (-1) Hx) as Hxm.
  pose proof (wrapped_step_back y 1 Hy) as Hy1.
  pose proof (wrapped_step_back y (-1) Hy) as Hym.
  pose proof (uint16_small x Hx) as Hx0.
  pose proof (uint16_small y Hy) as Hy0.
  replace (x + -1) with (x - 1) in Hxm by lia.
  replace (uint16 (x - 1) - -1) with (uint16 (x - 1) + 1) in Hxm by lia.
  replace (y + -1) with (y - 1) in Hym by lia.
  replace (uint16 (y - 1) - -1) with (uint16 (y - 1) + 1) in Hym by lia.
  destruct d; unfold position_in_direction, opposite, make; cbn [xx yy];
    rewrite ?Hx0, ?Hy0, ?Hx1, ?Hxm, ?Hy1, ?Hym, ?Hx0, ?Hy0; reflexivity.
Qed.

Lemma step_there_and_back_witness :
  valid (make 0 65535)
  /\ position_in_direction (position_in_direction (make 0 65535) BOTTOM_LEFT)
       (opposite BOTTOM_LEFT) = make 0 65535.
Proof.
  assert (Hv : valid (make 0 65535)) by (vm_compute; intuition discriminate).
  split; [exact Hv|].
  exact (step_there_and_back (make 0 65535) BOTTOM_LEFT Hv).
Defined.

Lemma range_to_exact (a b : world_position_t) :
  valid a -> valid b ->
  range_to a b = Z.max (Z.abs (xx a - xx b)) (Z.abs (yy a - yy b)).
Proof.
  intros [Hax Hay] [Hbx Hby]. unfold range_to.
  destruct (Z.ltb_spec (xx a) (xx b)), (Z.ltb_spec (yy a) (yy b));
    rewrite uint16_small by lia; lia.
Qed.

(** X3: away from the edges of the plane every one of the eight
    neighbours is at range 1. *)
Theorem range_to_neighbour (p : world_position_t) (d : direction_t) :
  1 <= xx p <= 65534 -> 1 <= yy p <= 65534 ->
  range_to p (position_in_direction p d) = 1.
Proof.
  intros Hx Hy.
  destruct (position_in_direction_step p d) as [Hsx Hsy].
  destruct (unit_step d) as [Hh Hv].
  rewrite uint16_small in Hsx by lia. rewrite uint16_small in Hsy by lia.
  rewrite range_to_exact; [| split; lia | split; lia].
  rewrite Hsx, Hsy. destruct d; simpl; lia.
Qed.

Lemma range_to_neighbour_witness :
  1 <= xx (make 50 99) <= 65534 /\ 1 <= yy (make 50 99) <= 65534
  /\ range_to (make 50 99) (position_in_direction (make 50 99) BOTTOM_LEFT) = 1.
Proof.
  assert (Hx : 1 <= xx (make 50 99) <= 65534) by (vm_compute; intuition discriminate).
  assert (Hy : 1 <= yy (make 50 99) <= 65534) by (vm_compute; intuition discriminate).
  split; [exact Hx|]. split; [exact Hy|].
  exact (range_to_neighbour (make 50 99) BOTTOM_LEFT Hx Hy).
Defined.

(** X4: [range_to] is a distance on the plane: it is zero exactly for
    positions that [operator!=] does not tell apart, and it satisfies the
    triangle inequality. *)
Theorem range_to_metric (a b c : world_position_t) :
  valid a -> valid b -> valid c ->
  (range_to a b = 0 <-> neq a b = false)
  /\ range_to a c <= range_to a b + range_to b c.
Proof.
  intros Ha Hb Hc.
  rewrite !range_to_exact by assumption. split.
  - unfold neq. split.
    + intros Hz.
      assert (xx a = xx b) as -> by lia. assert (yy a = yy b) as -> by lia.
      rewrite !Z.eqb_refl. reflexivity.
    + intros Hn. apply orb_false_elim in Hn as [Hx Hy].
      apply negb_false_iff in Hx, Hy.
      apply Z.eqb_eq in Hx, Hy. lia.
  - lia.
Qed.

Lemma range_to_metric_witness :
  valid (make 3 4) /\ valid (make 10 4) /\ valid (make 10 30)
  /\ range_to (make 3 4) (make 10 30)
     <= range_to (make 3 4) (make 10 4) + range_to (make 10 4) (make 10 30).
Proof.
  assert (Ha : valid (make 3 4)) by (vm_compute; intuition discriminate).
  assert (Hb : valid (make 10 4)) by (vm_compute; intuition discriminate).
  assert (Hc : valid (make 10 30)) by (vm_compute; intuition discriminate).
  split; [exact Ha|]. split; [exact Hb|]. split; [exact Hc|].
  exact (proj2 (range_to_metric (make 3 4) (make 10 4) (make 10 30) Ha Hb Hc)).
Defined.

Lemma int8_zero (z : Z) : int8 z = 0 <-> z mod 256 = 0.
Proof.
  unfold int8.
  pose proof (Z.mod_pos_bound (z + 128) 256 ltac:(lia)).
  pose proof (Z.mod_pos_bound z 256 ltac:(lia)).
  pose proof (Z.div_mod (z + 128) 256 ltac:(lia)).
  pose proof (Z.div_mod z 256 ltac:(lia)).
  split; intros Hz; nia.
Qed.

(** X5: [direction_to] falls through to [(direction_t)-1] exactly when both
    coordinate differences are multiples of 256; in particular from any
    position to itself. *)
Theorem direction_to_none (p q : world_position_t) :
  (direction_to p q = None
   <-> (xx q - xx p) mod 256 = 0 /\ (yy q - yy p) mod 256 = 0)
  /\ direction_to p p = None.
Proof.
  assert (Hiff : forall a b : world_position_t,
    direction_to a b = None
    <-> (xx b - xx a) mod 256 = 0 /\ (yy b - yy a) mod 256 = 0).
  { intros a b. rewrite <- !int8_zero. unfold direction_to.
    destruct (Z.ltb_spec 0 (int8 (xx b - xx a))),
             (Z.ltb_spec (int8 (xx b - xx a)) 0),
             (Z.ltb_spec 0 (int8 (yy b - yy a))),
             (Z.ltb_spec (int8 (yy b - yy a)) 0);
      split; try discriminate; try lia; intros; reflexivity || lia. }
  split; [apply Hiff|].
  apply Hiff. rewrite !Z.sub_diag. split; reflexivity.
Qed.

Lemma int8_bounds (z : Z) : -128 <= int8 z <= 127.
Proof.
  unfold int8. pose proof (Z.mod_pos_bound (z + 128) 256 ltac:(lia)). lia.
Qed.

(** X6: for two positions whose coordinate differences lie in
    [-127, 127], the direction back is the opposite of the direction
    there. *)
Theorem direction_to_reversed (p q : world_position_t) :
  -127 <= xx q - xx p <= 127 -> -127 <= yy q - yy p <= 127 ->
  direction_to q p = opposite <$> direction_to p q.
Proof.
  intros Hx Hy. unfold direction_to.
  rewrite !int8_small by lia.
  destruct (Z.ltb_spec 0 (xx q - xx p)), (Z.ltb_spec (xx q - xx p) 0),
           (Z.ltb_spec 0 (yy q - yy p)), (Z.ltb_spec (yy q - yy p) 0),
           (Z.ltb_spec 0 (xx p - xx q)), (Z.ltb_spec (xx p - xx q) 0),
           (Z.ltb_spec 0 (yy p - yy q)), (Z.ltb_spec (yy p - yy q) 0);
    try lia; reflexivity.
Qed.

Lemma direction_to_reversed_witness :
  direction_to (make 13 9) (make 10 10) = Some BOTTOM_LEFT
  /\ direction_to (make 13 9) (make 10 10)
     = opposite <$> direction_to (make 10 10) (make 13 9).
Proof.
  split; [reflexivity|].
  apply (direction_to_reversed (make 10 10) (make 13 9));
    vm_compute; intuition discriminate.
Defined.

End WorldPositionFacts.

(** ** Array accesses *)

(** Runs the binds whose first computation is already a value. *)
Ltac run_bind := cbn [mbind mret outcome_bind outcome_ret].

Lemma read_in_range (a : list Z) (i : Z) :
  0 <= i < Z.of_nat (length a) -> read a i = Returned (at_ a i).
Proof.
  intros Hi. unfold read, at_.
  destruct (Z.ltb_spec i 0); [lia|].
  destruct (lookup_lt_is_Some_2 a (Z.to_nat i)) as [v Hv]; [lia|].
  rewrite Hv. f_equal. symmetry. apply list_lookup_total_correct. exact Hv.
Qed.

Lemma write_in_range {A : Type} (a : list A) (i : Z) (v : A) :
  0 <= i < Z.of_nat (length a) -> write a i v = Returned (<[Z.to_nat i := v]> a).
Proof.
  intros Hi. unfold write.
  destruct (Z.leb_spec 0 i); [|lia].
  destruct (Z.ltb_spec i (Z.of_nat (length a))); [reflexivity|lia].
Qed.

Lemma write_Returned {A : Type} (a a' : list A) (i : Z) (v : A) :
  write a i v = Returned a' ->
  0 <= i < Z.of_nat (length a) /\ a' = <[Z.to_nat i := v]> a.
Proof.
  unfold write.
  destruct (Z.leb_spec 0 i), (Z.ltb_spec i (Z.of_nat (length a)));
    simpl; intros Hw; inversion Hw; split; [lia|reflexivity].
Qed.

Lemma at_write_same (a : list Z) (i v : Z) :
  0 <= i < Z.of_nat (length a) -> at_ (<[Z.to_nat i := v]> a) i = v.
Proof.
  intros Hi. unfold at_. apply list_lookup_total_insert_eq. lia.
Qed.

Lemma at_write_other (a : list Z) (i j v : Z) :
  0 <= i -> 0 <= j -> i <> j -> at_ (<[Z.to_nat i := v]> a) j = at_ a j.
Proof.
  intros Hi Hj Hij. unfold at_. apply list_lookup_total_insert_ne. lia.
Qed.

(** ** The open/closed list *)

Module OpenClosedFacts.

Import OpenClosed.

Lemma elem_of_write (l : list Z) (i : nat) (v x : Z) :
  x ∈ <[i := v]> l -> x = v \/ x ∈ l.
Proof.
  intros Hx. apply list_elem_of_lookup in Hx as [j Hj].
  destruct (decide (i = j)) as [->|Hne].
  - destruct (decide (j < length l)%nat) as [Hlt|Hge].
    + rewrite list_lookup_insert_eq in Hj by exact Hlt. left. congruence.
    + rewrite list_insert_ge in Hj by lia. right.
      apply list_elem_of_lookup. eauto.
  - rewrite list_lookup_insert_ne in Hj by exact Hne. right.
    apply list_elem_of_lookup. eauto.
Qed.

Lemma make_stamps_ok capacity : stamps_ok capacity (make capacity).
Proof.
  split; simpl.
  - apply length_replicate.
  - unfold UINT_MAX. lia.
  - intros v Hv. apply elem_of_replicate in Hv as [-> _]. lia.
Qed.

Lemma clear_stamps_ok capacity s :
  stamps_ok capacity s -> stamps_ok capacity (clear s).
Proof.
  intros [Hlen Hm Hb]. unfold clear.
  destruct (Z.leb_spec (UINT_MAX - 2) (marker s)) as [Hhi|Hlo].
  - split; simpl.
    + rewrite length_replicate. exact Hlen.
    + unfold UINT_MAX. lia.
    + intros v Hv. apply elem_of_replicate in Hv as [-> _]. lia.
  - assert (Hu : uint (marker s + 2) = marker s + 2).
    { unfold uint. apply Z.mod_small. unfold UINT_MAX in *. lia. }
    split; simpl; rewrite ?Hu.
    + exact Hlen.
    + unfold UINT_MAX in *. lia.
    + intros v Hv. specialize (Hb v Hv). lia.
Qed.

Lemma closed_stamp_exact s :
  1 <= marker s <= UINT_MAX - 1 -> uint (marker s + 1) = marker s + 1.
Proof.
  intros Hm. unfold uint. apply Z.mod_small. unfold UINT_MAX in Hm. lia.
Qed.

Lemma open_stamps_ok capacity s index s' :
  stamps_ok capacity s -> open s index = Returned s' -> stamps_ok capacity s'.
Proof.
  intros [Hlen Hm Hb]. unfold open. intros Ho.
  destruct (write (list_ s) index (marker s)) as [l| | |] eqn:Hw;
    simpl in Ho; try discriminate.
  injection Ho as <-. apply write_Returned in Hw as [_ ->].
  split; simpl.
  - rewrite length_insert. exact Hlen.
  - exact Hm.
  - intros v Hv. apply elem_of_write in Hv as [->|Hv]; [lia|auto].
Qed.

Lemma close_stamps_ok capacity s index s' :
  stamps_ok capacity s -> close s index = Returned s' -> stamps_ok capacity s'.
Proof.
  intros [Hlen Hm Hb]. unfold close. intros Hc.
  destruct (write (list_ s) index (uint (marker s + 1))) as [l| | |] eqn:Hw;
    simpl in Hc; try discriminate.
  injection Hc as <-. apply write_Returned in Hw as [_ ->].
  split; simpl.
  - rewrite length_insert. exact Hlen.
  - exact Hm.
  - intros v Hv. apply elem_of_write in Hv as [->|Hv]; [|auto].
    rewrite closed_stamp_exact by exact Hm. lia.
Qed.

Lemma reachable_stamps_ok capacity s :
  reachable capacity s -> stamps_ok capacity s.
Proof.
  induction 1;
    eauto using make_stamps_ok, open_stamps_ok, close_stamps_ok, clear_stamps_ok.
Qed.

Lemma stamp_in_list (l : list Z) (i : Z) :
  0 <= i < Z.of_nat (length l) -> at_ l i ∈ l.
Proof.
  intros Hi. unfold at_. apply list_elem_of_lookup_total_2. lia.
Qed.

(** On an instance nobody opens or closes anything in, [n] clears move the
    marker to [1 + 2 n]; the clear after the 2147483646th finds the marker at
    [UINT_MAX - 2] and starts over from the initial state. *)
Lemma clear_iter (capacity n : nat) :
  Z.of_nat n <= 2147483646 ->
  Nat.iter n clear (make capacity)
  = {| list_ := replicate capacity 0; marker := 1 + 2 * Z.of_nat n |}.
Proof.
  induction n as [|n IH]; intros Hn; [reflexivity|].
  change (Nat.iter (S n) clear (make capacity))
    with (clear (Nat.iter n clear (make capacity))).
  rewrite IH by lia. unfold clear. cbn [marker list_].
  destruct (Z.leb_spec (UINT_MAX - 2) (1 + 2 * Z.of_nat n)) as [Hhi|Hlo].
  - unfold UINT_MAX in Hhi. lia.
  - f_equal. unfold uint. rewrite Z.mod_small by lia. lia.
Qed.

Lemma clear_cycle (capacity : nat) :
  clear (Nat.iter (Z.to_nat 2147483646) clear (make capacity)) = make capacity.
Proof.
  rewrite clear_iter by lia. unfold clear. cbn [marker list_].
  rewrite Z2Nat.id by lia.
  destruct (Z.leb_spec (UINT_MAX - 2) (1 + 2 * 2147483646)) as [_|Hlo].
  - rewrite length_replicate. reflexivity.
  - unfold UINT_MAX in Hlo. lia.
Qed.

Example three_searches :
  (s1 ← open (make 4) 2; s2 ← close s1 2; is_closed (clear (clear s2)) 2)
  = Returned false.
Proof. reflexivity. Qed.

(** C4: whatever opens, closes and clears came before, right after a
    [clear] every index reads as neither open nor closed; and [clear]
    leaves the array alone, only advancing the marker by two, unless the
    marker has reached [UINT_MAX - 2]. *)
Theorem clear_forgets_everything (capacity : nat) (s : open_closed_t) :
  reachable capacity s ->
  (forall index, 0 <= index < Z.of_nat capacity ->
     is_open (clear s) index = Returned false
     /\ is_closed (clear s) index = Returned false)
  /\ (marker s < UINT_MAX - 2 ->
      list_ (clear s) = list_ s /\ marker (clear s) = marker s + 2).
Proof.
  intros Hr. apply reachable_stamps_ok in Hr.
  pose proof (clear_stamps_ok _ _ Hr) as Hc.
  destruct Hr as [Hlen Hm Hb]. split.
  - intros index Hi.
    destruct Hc as [Hlen' Hm' _].
    unfold is_open, is_closed.
    rewrite read_in_range by lia. simpl.
    rewrite closed_stamp_exact by exact Hm'.
    assert (Hv : at_ (list_ (clear s)) index < marker (clear s)).
    { assert (Hin : at_ (list_ (clear s)) index ∈ list_ (clear s))
        by (apply stamp_in_list; lia).
      revert Hin. unfold clear.
      destruct (Z.leb_spec (UINT_MAX - 2) (marker s)) as [Hhi|Hlo]; simpl.
      - intros Hin. apply elem_of_replicate in Hin as [-> _]. lia.
      - intros Hin. specialize (Hb _ Hin).
        unfold uint. rewrite Z.mod_small by (unfold UINT_MAX in *; lia). lia. }
    split; f_equal; apply Z.eqb_neq; lia.
  - intros Hlo. unfold clear.
    destruct (Z.leb_spec (UINT_MAX - 2) (marker s)); [lia|]. simpl.
    split; [reflexivity|].
    unfold uint. apply Z.mod_small. unfold UINT_MAX in *. lia.
Qed.

Lemma clear_forgets_everything_witness :
  reachable 4 visited
  /\ is_open visited 3 = Returned true
  /\ is_closed visited 0 = Returned true
  /\ (is_open (clear visited) 3 = Returned false
      /\ is_closed (clear visited) 3 = Returned false)
  /\ (is_open (clear visited) 0 = Returned false
      /\ is_closed (clear visited) 0 = Returned false)
  /\ (is_open (clear visited) 1 = Returned false
      /\ is_closed (clear visited) 1 = Returned false)
  /\ list_ (clear visited) = list_ visited
  /\ marker (clear visited) = 5.
Proof.
  assert (Hr : reachable 4 visited).
  { apply (reach_close 4 {| list_ := [0; 1; 2; 3]; marker := 3 |} 0);
      [|reflexivity].
    apply (reach_open 4 {| list_ := [0; 1; 2; 0]; marker := 3 |} 3);
      [|reflexivity].
    apply (reach_clear 4 {| list_ := [0; 1; 2; 0]; marker := 1 |}).
    apply (reach_close 4 {| list_ := [0; 1; 0; 0]; marker := 1 |} 2);
      [|reflexivity].
    apply (reach_open 4 (make 4) 1); [|reflexivity].
    apply reach_make. }
  split; [exact Hr|].
  split; [reflexivity|]. split; [reflexivity|].
  destruct (clear_forgets_everything 4 visited Hr) as [Hnone Hkeep].
  split; [apply Hnone; lia|].
  split; [apply Hnone; lia|].
  split; [apply Hnone; lia|].
  apply Hkeep. vm_compute. reflexivity.
Defined.

(** C5: in every reachable state an index is never open and closed at
    once, so it is in exactly one of the states unvisited, open, closed;
    [open] makes it open and not closed, [close] makes it closed and not
    open. *)
Theorem open_closed_exclusive (capacity : nat) (s : open_closed_t) (index : Z) :
  reachable capacity s ->
  0 <= index < Z.of_nat capacity ->
  (exists o c, is_open s index = Returned o /\ is_closed s index = Returned c
               /\ o && c = false)
  /\ (exists s', open s index = Returned s'
                 /\ is_open s' index = Returned true
                 /\ is_closed s' index = Returned false)
  /\ (exists s', close s index = Returned s'
                 /\ is_closed s' index = Returned true
                 /\ is_open s' index = Returned false).
Proof.
  intros Hr Hi. apply reachable_stamps_ok in Hr as [Hlen Hm Hb].
  pose proof (closed_stamp_exact s Hm) as Hcs.
  split; [|split].
  - exists (at_ (list_ s) index =? marker s),
           (at_ (list_ s) index =? uint (marker s + 1)).
    unfold is_open, is_closed. rewrite read_in_range by lia. simpl.
    split; [reflexivity|]. split; [reflexivity|].
    rewrite Hcs.
    destruct (Z.eqb_spec (at_ (list_ s) index) (marker s)); [|reflexivity].
    simpl. apply Z.eqb_neq. lia.
  - unfold open. rewrite write_in_range by lia. simpl.
    eexists. split; [reflexivity|].
    unfold is_open, is_closed. simpl.
    rewrite read_in_range by (rewrite length_insert; lia). simpl.
    rewrite at_write_same by lia. rewrite Hcs.
    split; f_equal; [apply Z.eqb_refl | apply Z.eqb_neq; lia].
  - unfold close. rewrite write_in_range by lia. simpl.
    eexists. split; [reflexivity|].
    unfold is_open, is_closed. simpl.
    rewrite read_in_range by (rewrite length_insert; lia). simpl.
    rewrite at_write_same by lia. rewrite Hcs.
    split; f_equal; [apply Z.eqb_refl | apply Z.eqb_neq; lia].
Qed.

Lemma open_closed_exclusive_witness :
  reachable 4 (clear (make 4)) /\ 0 <= 3 < Z.of_nat 4
  /\ exists s', open (clear (make 4)) 3 = Returned s'
                /\ is_open s' 3 = Returned true
                /\ is_closed s' 3 = Returned false.
Proof.
  assert (Hr : reachable 4 (clear (make 4))) by (do 2 constructor).
  assert (Hi : 0 <= 3 < Z.of_nat 4) by (vm_compute; intuition discriminate).
  split; [exact Hr|]. split; [exact Hi|].
  exact (proj1 (proj2 (open_closed_exclusive 4 (clear (make 4)) 3 Hr Hi))).
Defined.

(** *** Frame, bounds and the generation counter *)

Lemma status_after_write (l : list Z) (i j v : Z) :
  0 <= i < Z.of_nat (length l) -> 0 <= j < Z.of_nat (length l) -> i <> j ->
  read (<[Z.to_nat i := v]> l) j = read l j.
Proof.
  intros Hi Hj Hne.
  rewrite !read_in_range by (rewrite ?length_insert; lia).
  f_equal. apply at_write_other; lia.
Qed.

(** X10: [open] and [close] of one index leave what [is_open] and
    [is_closed] answer for every other index as it was. *)
Theorem open_close_frame (capacity : nat) (s : open_closed_t) (i j : Z) :
  reachable capacity s ->
  0 <= i < Z.of_nat capacity -> 0 <= j < Z.of_nat capacity -> i <> j ->
  (exists s', open s i = Returned s'
              /\ is_open s' j = is_open s j
              /\ is_closed s' j = is_closed s j)
  /\ (exists s', close s i = Returned s'
                 /\ is_open s' j = is_open s j
                 /\ is_closed s' j = is_closed s j).
Proof.
  intros Hr Hi Hj Hne. apply reachable_stamps_ok in Hr as [Hlen _ _].
  split.
  - unfold open. rewrite write_in_range by lia. run_bind.
    eexists. split; [reflexivity|].
    unfold is_open, is_closed. cbn [list_ marker].
    rewrite status_after_write by lia. split; reflexivity.
  - unfold close. rewrite write_in_range by lia. run_bind.
    eexists. split; [reflexivity|].
    unfold is_open, is_closed. cbn [list_ marker].
    rewrite status_after_write by lia. split; reflexivity.
Qed.

Lemma open_close_frame_witness :
  reachable 4 (make 4) /\ 0 <= 1 < Z.of_nat 4 /\ 0 <= 3 < Z.of_nat 4 /\ 1 <> 3
  /\ exists s', open (make 4) 1 = Returned s'
                /\ is_open s' 3 = is_open (make 4) 3
                /\ is_closed s' 3 = is_closed (make 4) 3.
Proof.
  assert (Hr : reachable 4 (make 4)) by constructor.
  assert (Hi : 0 <= 1 < Z.of_nat 4) by (vm_compute; intuition discriminate).
  assert (Hj : 0 <= 3 < Z.of_nat 4) by (vm_compute; intuition discriminate).
  assert (Hne : 1 <> 3) by discriminate.
  split; [exact Hr|]. split; [exact Hi|]. split; [exact Hj|].
  split; [exact Hne|].
  exact (proj1 (open_close_frame 4 (make 4) 1 3 Hr Hi Hj Hne)).
Defined.

Lemma open_marker s index s' : open s index = Returned s' -> marker s' = marker s.
Proof.
  unfold open. destruct (write _ _ _) as [l| | |]; run_bind;
    intros Ho; inversion Ho. reflexivity.
Qed.

Lemma close_marker s index s' : close s index = Returned s' -> marker s' = marker s.
Proof.
  unfold close. destruct (write _ _ _) as [l| | |]; run_bind;
    intros Hc; inversion Hc. reflexivity.
Qed.

(** X11: in every reachable state the marker is odd and at most
    [UINT_MAX - 2], so the closed stamp [marker + 1] is even and never
    wraps, and every stamp in the array is at most the closed stamp. *)
Theorem marker_odd_and_bounded (capacity : nat) (s : open_closed_t) :
  reachable capacity s ->
  Z.odd (marker s) = true
  /\ 1 <= marker s <= UINT_MAX - 2
  /\ uint (marker s + 1) = marker s + 1
  /\ Forall (fun v => 0 <= v <= marker s + 1) (list_ s).
Proof.
  intros Hr.
  assert (Hodd : Z.odd (marker s) = true /\ 1 <= marker s <= UINT_MAX - 2).
  { induction Hr as [|s index s' Hr IH Ho|s index s' Hr IH Hc|s Hr IH].
    - split; [reflexivity|]. unfold UINT_MAX. simpl. lia.
    - rewrite (open_marker _ _ _ Ho). exact IH.
    - rewrite (close_marker _ _ _ Hc). exact IH.
    - destruct IH as [Ho Hb]. unfold clear.
      destruct (Z.leb_spec (UINT_MAX - 2) (marker s)) as [Hhi|Hlo]; cbn [marker].
      + split; [reflexivity|]. unfold UINT_MAX. lia.
      + unfold UINT_MAX in *.
        assert (marker s <> 4294967292).
        { intros Heq. rewrite Heq in Ho. discriminate. }
        unfold uint. rewrite Z.mod_small by lia.
        split; [|lia].
        rewrite Z.odd_add. rewrite Ho. reflexivity. }
  destruct Hodd as [Ho Hb].
  pose proof (reachable_stamps_ok _ _ Hr) as [_ Hm Hst].
  split; [exact Ho|]. split; [exact Hb|].
  split; [apply closed_stamp_exact; exact Hm|].
  apply Forall_forall. exact Hst.
Qed.

Lemma marker_odd_and_bounded_witness :
  reachable 4 (clear (clear (make 4)))
  /\ Z.odd (marker (clear (clear (make 4)))) = true
  /\ 1 <= marker (clear (clear (make 4))) <= UINT_MAX - 2.
Proof.
  assert (Hr : reachable 4 (clear (clear (make 4)))) by (do 3 constructor).
  split; [exact Hr|].
  destruct (marker_odd_and_bounded 4 _ Hr) as (Ho & Hb & _).
  split; [exact Ho|exact Hb].
Defined.

(** X12: on an instance in which nothing is opened or closed, [n] clears
    move the marker to [1 + 2 n] without touching the array, up to
    [n = 2147483646]; the clear after that finds the marker at
    [UINT_MAX - 2], rewrites the array and is back at the initial state. *)
Theorem generation_period (capacity n : nat) :
  Z.of_nat n <= 2147483646 ->
  Nat.iter n clear (make capacity)
  = {| list_ := replicate capacity 0; marker := 1 + 2 * Z.of_nat n |}
  /\ clear (Nat.iter (Z.to_nat 2147483646) clear (make capacity))
     = make capacity.
Proof.
  intros Hn. split; [apply clear_iter; exact Hn | apply clear_cycle].
Qed.

Lemma generation_period_witness :
  Z.of_nat 3 <= 2147483646
  /\ Nat.iter 3 clear (make 2) = {| list_ := [0; 0]; marker := 7 |}.
Proof.
  assert (Hn : Z.of_nat 3 <= 2147483646) by (vm_compute; discriminate).
  split; [exact Hn|].
  exact (proj1 (generation_period 2 3 Hn)).
Defined.

(** X13: none of the four accessors checks its index: with an index at or
    beyond the capacity each of them is undefined behaviour, in every
    reachable state. *)
Theorem index_out_of_range (capacity : nat) (s : open_closed_t) (index : Z) :
  reachable capacity s -> Z.of_nat capacity <= index ->
  is_open s index = Undefined /\ is_closed s index = Undefined
  /\ open s index = Undefined /\ close s index = Undefined.
Proof.
  intros Hr Hi. apply reachable_stamps_ok in Hr as [Hlen _ _].
  assert (Hread : read (list_ s) index = Undefined).
  { unfold read. destruct (Z.ltb_spec index 0); [reflexivity|].
    rewrite lookup_ge_None_2 by lia. reflexivity. }
  assert (Hwrite : forall v, write (list_ s) index v = Undefined).
  { intros v. unfold write.
    destruct (Z.ltb_spec index (Z.of_nat (length (list_ s)))); [lia|].
    rewrite andb_false_r. reflexivity. }
  unfold is_open, is_closed, open, close.
  rewrite Hread, !Hwrite. repeat split; reflexivity.
Qed.

Lemma index_out_of_range_witness :
  reachable 4 (make 4) /\ Z.of_nat 4 <= 4
  /\ is_open (make 4) 4 = Undefined /\ open (make 4) 4 = Undefined.
Proof.
  assert (Hr : reachable 4 (make 4)) by constructor.
  assert (Hi : Z.of_nat 4 <= 4) by (vm_compute; discriminate).
  split; [exact Hr|]. split; [exact Hi|].
  destruct (index_out_of_range 4 (make 4) 4 Hr Hi) as (Ho & _ & Hw & _).
  split; [exact Ho|exact Hw].
Defined.

End OpenClosedFacts.

(** ** Rooms *)

Module MapPositionFacts.

Import MapPosition.

Lemma id_fields (p : map_position_t) :
  valid p -> xx p = id p mod 256 /\ yy p = id p / 256.
Proof.
  intros [Hx Hy]. unfold id. split; Z.div_mod_to_equations; lia.
Qed.

(** X7: the id of a room is a valid index into the arrays of
    [map_position_size] entries, [operator==] holds exactly for equal
    coordinates, and [operator<] is a strict total order on rooms: of
    [p < q], [p == q] and [q < p] exactly one holds. *)
Theorem id_orders_rooms (p q : map_position_t) :
  valid p -> valid q ->
  0 <= id p < map_position_size
  /\ (eq_ p q = true <-> p = q)
  /\ (lt p q = true /\ eq_ p q = false /\ lt q p = false
      \/ lt p q = false /\ eq_ p q = true /\ lt q p = false
      \/ lt p q = false /\ eq_ p q = false /\ lt q p = true).
Proof.
  intros Hp Hq. split; [|split].
  - destruct Hp as [Hx Hy]. unfold id, map_position_size.
    change (Z.shiftl 1 (2 * 8)) with 65536. lia.
  - unfold eq_. rewrite Z.eqb_eq. split.
    + intros Hid.
      destruct (id_fields p Hp) as [Hpx Hpy].
      destruct (id_fields q Hq) as [Hqx Hqy].
      destruct p as [px py], q as [qx qy]. simpl in *.
      rewrite Hid in Hpx, Hpy. congruence.
    + intros ->. reflexivity.
  - unfold lt, eq_.
    destruct (Z.ltb_spec (id p) (id q)), (Z.eqb_spec (id p) (id q)),
             (Z.ltb_spec (id q) (id p)); try lia; auto.
Qed.

Lemma id_orders_rooms_witness :
  valid (make 129 126) /\ valid (make 130 126)
  /\ 0 <= id (make 129 126) < map_position_size
  /\ (eq_ (make 129 126) (make 130 126) = true <-> make 129 126 = make 130 126).
Proof.
  assert (Hp : valid (make 129 126)) by (vm_compute; intuition discriminate).
  assert (Hq : valid (make 130 126)) by (vm_compute; intuition discriminate).
  split; [exact Hp|]. split; [exact Hq|].
  destruct (id_orders_rooms (make 129 126) (make 130 126) Hp Hq)
    as (Hid & Heq & _).
  split; [exact Hid|exact Heq].
Defined.

End MapPositionFacts.

Module WorldRoomFacts.

Import WorldRoom.

Lemma map_position_exact (p : WorldPosition.world_position_t) :
  on_map p ->
  MapPosition.xx (map_position p) = WorldPosition.xx p / 50
  /\ MapPosition.yy (map_position p) = WorldPosition.yy p / 50.
Proof.
  intros [Hx Hy]. unfold map_position, MapPosition.make. simpl.
  split; apply uint8_small.
  - split; [apply Z.div_pos; lia | apply Z.div_lt_upper_bound; lia].
  - split; [apply Z.div_pos; lia | apply Z.div_lt_upper_bound; lia].
Qed.

(** X8: on the part of the plane the 256 x 256 rooms cover, the room of a
    tile is its coordinates divided by 50, without loss: two tiles are in
    the same room exactly when they lie in the same 50 x 50 block.  Farther
    out the room coordinate is cut to eight bits: 12800 tiles to the right
    the same room comes back. *)
Theorem map_position_blocks (p q : WorldPosition.world_position_t) :
  on_map p -> on_map q ->
  (map_position p = map_position q
   <-> WorldPosition.xx p / 50 = WorldPosition.xx q / 50
       /\ WorldPosition.yy p / 50 = WorldPosition.yy q / 50)
  /\ MapPosition.valid (map_position p)
  /\ map_position (WorldPosition.make (WorldPosition.xx p + 12800)
                                      (WorldPosition.yy p))
     = map_position p.
Proof.
  intros Hp Hq.
  destruct (map_position_exact p Hp) as [Hpx Hpy].
  destruct (map_position_exact q Hq) as [Hqx Hqy].
  split; [|split].
  - split.
    + intros Heq. rewrite <- Hpx, <- Hpy, <- Hqx, <- Hqy, Heq. split; reflexivity.
    + intros [Hx Hy].
      destruct (map_position p) as [px py], (map_position q) as [qx qy].
      simpl in *. f_equal; congruence.
  - destruct Hp as [Hx Hy]. split.
    + rewrite Hpx. split; [apply Z.div_pos; lia | apply Z.div_lt_upper_bound; lia].
    + rewrite Hpy. split; [apply Z.div_pos; lia | apply Z.div_lt_upper_bound; lia].
  - destruct Hp as [Hx Hy].
    assert (Hd : (WorldPosition.xx p + 12800) / 50 = WorldPosition.xx p / 50 + 1 * 256)
      by (Z.div_mod_to_equations; lia).
    assert (Hu : uint8 ((WorldPosition.xx p + 12800) / 50)
                 = uint8 (WorldPosition.xx p / 50)).
    { unfold uint8. rewrite Hd. apply Z.mod_add. lia. }
    unfold map_position, WorldPosition.make, MapPosition.make.
    cbn [WorldPosition.xx WorldPosition.yy].
    rewrite uint16_small by lia.
    rewrite (uint16_small (WorldPosition.yy p)) by lia.
    rewrite Hu. reflexivity.
Qed.

Lemma map_position_blocks_witness :
  on_map (WorldPosition.make 6451 6349) /\ on_map (WorldPosition.make 6499 6300)
  /\ map_position (WorldPosition.make 6451 6349)
     = map_position (WorldPosition.make 6499 6300).
Proof.
  assert (Hp : on_map (WorldPosition.make 6451 6349))
    by (vm_compute; intuition discriminate).
  assert (Hq : on_map (WorldPosition.make 6499 6300))
    by (vm_compute; intuition discriminate).
  split; [exact Hp|]. split; [exact Hq|].
  apply (proj1 (map_position_blocks _ _ Hp Hq)).
  split; reflexivity.
Defined.



End WorldRoomFacts.

(** ** Room lookups *)

Module RoomInfoFacts.

Import RoomInfo.

Lemma low_two_bits (x : Z) :
  Z.land 3 x = Z.b2z (Z.testbit x 0) + 2 * Z.b2z (Z.testbit x 1).
Proof.
  rewrite Z.land_comm. change 3 with (Z.ones 2).
  rewrite Z.land_ones by lia.
  rewrite Z.bit0_mod. rewrite (Z.testbit_spec' x 1) by lia.
  change (2 ^ 2) with 4. change (2 ^ 1) with 2.
  pose proof (Z.div_mod x 4 ltac:(lia)).
  pose proof (Z.mod_pos_bound x 4 ltac:(lia)).
  pose proof (Z.div_mod x 2 ltac:(lia)).
  pose proof (Z.mod_pos_bound x 2 ltac:(lia)).
  pose proof (Z.div_mod (x / 2) 2 ltac:(lia)).
  pose proof (Z.mod_pos_bound (x / 2) 2 ltac:(lia)).
  lia.
Qed.

Lemma shifted_pair (t k : Z) :
  0 <= k ->
  Z.land 3 (Z.shiftr t k)
  = Z.b2z (Z.testbit t k) + 2 * Z.b2z (Z.testbit t (k + 1)).
Proof.
  intros Hk. rewrite low_two_bits.
  rewrite !Z.shiftr_spec by lia.
  rewrite Z.add_0_l. rewrite (Z.add_comm 1 k). reflexivity.
Qed.

Lemma look_spec (r : room_info_t) (xx yy : Z) :
  complete r -> 0 <= xx < 50 -> 0 <= yy < 50 ->
  look r xx yy =
    Returned (if at_ (cost_matrix r) (xx * 50 + yy) =? 0
              then terrain_code (terrain r) (xx * 50 + yy)
              else at_ (cost_matrix r) (xx * 50 + yy)).
Proof.
  intros [Hc Ht] Hx Hy. unfold look.
  rewrite (read_in_range (cost_matrix r)) by lia. simpl.
  destruct (Z.eqb_spec (at_ (cost_matrix r) (xx * 50 + yy)) 0) as [Hz|Hnz];
    simpl; [|reflexivity].
  rewrite uint16_small by lia.
  assert (Hq : 0 <= (xx * 50 + yy) / 4 < 625).
  { split; [apply Z.div_pos; lia | apply Z.div_lt_upper_bound; lia]. }
  rewrite read_in_range by lia. simpl.
  pose proof (Z.mod_pos_bound (xx * 50 + yy) 4 ltac:(lia)) as Hm.
  rewrite shifted_pair by lia.
  unfold terrain_code. f_equal. apply uint8_small.
  destruct (Z.testbit _ _), (Z.testbit _ _); simpl; lia.
Qed.

(** C3: on a tile with [xx < 50] and [yy < 50], [look] returns the cost
    matrix byte of the tile when that byte is not zero, and otherwise the
    two-bit terrain code of tile index [xx * 50 + yy]: bits
    [(index mod 4) * 2] and [(index mod 4) * 2 + 1] of terrain byte
    [index / 4]. *)
Theorem look_cost_or_terrain (r : room_info_t) (xx yy : Z) :
  complete r -> 0 <= xx < 50 -> 0 <= yy < 50 ->
  let index := xx * 50 + yy in
  let cost := at_ (cost_matrix r) index in
  let byte := at_ (terrain r) (index / 4) in
  read (cost_matrix r) index = Returned cost
  /\ read (terrain r) (index / 4) = Returned byte
  /\ (cost <> 0 -> look r xx yy = Returned cost)
  /\ (cost = 0 ->
      look r xx yy =
        Returned (Z.b2z (Z.testbit byte (index mod 4 * 2))
                  + 2 * Z.b2z (Z.testbit byte (index mod 4 * 2 + 1)))).
Proof.
  intros Hr Hx Hy index cost byte.
  pose proof (look_spec r xx yy Hr Hx Hy) as Hl.
  destruct Hr as [Hc Ht].
  assert (Hq : 0 <= index / 4 < 625).
  { subst index. split; [apply Z.div_pos; lia | apply Z.div_lt_upper_bound; lia]. }
  split; [apply read_in_range; subst index; lia|].
  split; [apply read_in_range; lia|].
  split.
  - intros Hnz. rewrite Hl. fold index. fold cost.
    destruct (Z.eqb_spec cost 0); [contradiction|reflexivity].
  - intros Hz. rewrite Hl. fold index. fold cost. rewrite Hz. reflexivity.
Qed.

Lemma look_cost_or_terrain_witness :
  let r := make sample_terrain (Some sample_costs) sample_pos in
  complete r /\ 0 <= 49 < 50 /\ 0 <= 0 < 50 /\ 0 <= 1 < 50
  /\ look r 0 1 = Returned 7
  /\ look r 49 49 = Returned 2.
Proof.
  intros r.
  assert (Hr : complete r) by (split; reflexivity).
  assert (H49 : 0 <= 49 < 50) by lia.
  assert (H0 : 0 <= 0 < 50) by lia.
  assert (H1 : 0 <= 1 < 50) by lia.
  split; [exact Hr|]. split; [exact H49|]. split; [exact H0|].
  split; [exact H1|]. split.
  - apply (look_cost_or_terrain r 0 1 Hr H0 H1). vm_compute. discriminate.
  - apply (look_cost_or_terrain r 49 49 Hr H49 H49). reflexivity.
Defined.

(** C8: a room made with a null cost matrix pointer behaves on every tile
    like one made with a pointer to 2500 zero bytes, and on every tile of
    the room [look] then returns the terrain code. *)
Theorem null_cost_matrix_defers_to_terrain
    (terrain : list Z) (pos : MapPosition.map_position_t) :
  (forall xx yy,
      look (make terrain None pos) xx yy
      = look (make terrain (Some (replicate 2500 0)) pos) xx yy)
  /\ (Z.of_nat (length terrain) = 625 ->
      forall xx yy, 0 <= xx < 50 -> 0 <= yy < 50 ->
      look (make terrain None pos) xx yy
      = Returned (terrain_code terrain (xx * 50 + yy))).
Proof.
  split; [reflexivity|].
  intros Ht xx yy Hx Hy.
  rewrite look_spec; [|split; [reflexivity|exact Ht]|exact Hx|exact Hy].
  simpl. unfold cost_matrix0, at_.
  rewrite lookup_total_replicate_2 by lia. reflexivity.
Qed.

Lemma null_cost_matrix_defers_to_terrain_witness :
  Z.of_nat (length sample_terrain) = 625 /\ 0 <= 49 < 50
  /\ look (make sample_terrain None sample_pos) 49 49 = Returned 2.
Proof.
  assert (Hlen : Z.of_nat (length sample_terrain) = 625) by reflexivity.
  assert (H49 : 0 <= 49 < 50) by lia.
  split; [exact Hlen|]. split; [exact H49|].
  exact (proj2 (null_cost_matrix_defers_to_terrain sample_terrain sample_pos)
           Hlen 49 49 H49 H49).
Defined.

(** X14: over complete buffers whose cost bytes are bytes, [look] returns
    a byte; it is the cost byte, hence not zero, when that byte is not
    zero, and a terrain code between 0 and 3 otherwise. *)
Theorem look_range (r : room_info_t) (xx yy : Z) :
  complete r -> Forall (fun c => 0 <= c < 256) (cost_matrix r) ->
  0 <= xx < 50 -> 0 <= yy < 50 ->
  exists v,
    look r xx yy = Returned v
    /\ 0 <= v < 256
    /\ (at_ (cost_matrix r) (xx * 50 + yy) <> 0 ->
        v = at_ (cost_matrix r) (xx * 50 + yy) /\ v <> 0)
    /\ (at_ (cost_matrix r) (xx * 50 + yy) = 0 -> 0 <= v <= 3).
Proof.
  intros Hr Hbytes Hx Hy.
  rewrite (look_spec r xx yy Hr Hx Hy).
  destruct Hr as [Hc Ht].
  assert (Hcost : 0 <= at_ (cost_matrix r) (xx * 50 + yy) < 256).
  { rewrite Forall_forall in Hbytes. apply Hbytes.
    unfold at_. apply list_elem_of_lookup_total_2. lia. }
  assert (Hcode : 0 <= terrain_code (terrain r) (xx * 50 + yy) <= 3).
  { unfold terrain_code. destruct (Z.testbit _ _), (Z.testbit _ _); simpl; lia. }
  eexists. split; [reflexivity|].
  destruct (Z.eqb_spec (at_ (cost_matrix r) (xx * 50 + yy)) 0) as [Hz|Hnz].
  - split; [lia|]. split; [intros Hn; contradiction|intros _; exact Hcode].
  - split; [exact Hcost|]. split; [intros _; split; [reflexivity|exact Hnz]|].
    intros Hz. contradiction.
Qed.

Lemma look_range_witness :
  let r := make sample_terrain (Some sample_costs) sample_pos in
  complete r /\ Forall (fun c => 0 <= c < 256) (cost_matrix r)
  /\ exists v, look r 49 49 = Returned v /\ 0 <= v < 256.
Proof.
  intros r.
  assert (Hr : complete r) by (split; reflexivity).
  assert (Hb : Forall (fun c => 0 <= c < 256) (cost_matrix r)).
  { apply Forall_forall. intros c Hc. unfold r, make, sample_costs in Hc.
    cbn [cost_matrix] in Hc.
    apply elem_of_app in Hc as [Hc|Hc].
    - apply elem_of_cons in Hc as [->|Hc]; [lia|].
      apply list_elem_of_singleton in Hc as ->. lia.
    - apply elem_of_replicate in Hc as [-> _]. lia. }
  assert (H49 : 0 <= 49 < 50) by lia.
  split; [exact Hr|]. split; [exact Hb|].
  destruct (look_range r 49 49 Hr Hb H49 H49) as (v & Hv & Hrange & _).
  exists v. split; [exact Hv|exact Hrange].
Defined.

End RoomInfoFacts.

(** ** The heap *)

Module HeapFacts.

Import Heap.

(** *** Slots, swaps and stored entries *)

Lemma length_swapped hp a b : length (swapped hp a b) = length hp.
Proof. unfold swapped. rewrite !length_insert. reflexivity. Qed.

Lemma swap_in_range hp a b :
  0 <= a < Z.of_nat (length hp) -> 0 <= b < Z.of_nat (length hp) ->
  swap hp a b = Returned (swapped hp a b).
Proof.
  intros Ha Hb. unfold swap.
  rewrite (read_in_range hp a) by exact Ha. simpl.
  rewrite (read_in_range hp b) by exact Hb. simpl.
  rewrite write_in_range by exact Ha. simpl.
  rewrite write_in_range by (rewrite length_insert; exact Hb).
  reflexivity.
Qed.

Lemma at_swapped hp a b i :
  0 <= a < Z.of_nat (length hp) -> 0 <= b < Z.of_nat (length hp) -> 0 <= i ->
  at_ (swapped hp a b) i
  = if i =? a then at_ hp b else if i =? b then at_ hp a else at_ hp i.
Proof.
  intros Ha Hb Hi. unfold swapped.
  destruct (Z.eqb_spec i b) as [->|Hib].
  - rewrite at_write_same by (rewrite length_insert; exact Hb).
    destruct (Z.eqb_spec b a) as [->|_]; reflexivity.
  - rewrite at_write_other by lia.
    destruct (Z.eqb_spec i a) as [->|Hia].
    + apply at_write_same. exact Ha.
    + apply at_write_other; lia.
Qed.

Lemma lookup_slot (hp : list Z) (i : Z) :
  0 <= i < Z.of_nat (length hp) -> hp !! Z.to_nat i = Some (at_ hp i).
Proof.
  intros Hi. unfold at_. apply list_lookup_lookup_total_lt. lia.
Qed.

Lemma lookup_entries (hp : list Z) (size : Z) (j : nat) :
  (j < Z.to_nat size)%nat ->
  entries_of hp size !! j = hp !! S j.
Proof.
  intros Hj. unfold entries_of.
  rewrite lookup_take_lt by exact Hj. rewrite lookup_drop. reflexivity.
Qed.

Lemma length_entries (hp : list Z) (size : Z) :
  0 <= size < Z.of_nat (length hp) ->
  Z.of_nat (length (entries_of hp size)) = size.
Proof.
  intros Hs. unfold entries_of. rewrite length_take, length_drop. lia.
Qed.

Lemma elem_of_entries (hp : list Z) (size x : Z) :
  0 <= size < Z.of_nat (length hp) ->
  x ∈ entries_of hp size <-> exists i, 1 <= i <= size /\ at_ hp i = x.
Proof.
  intros Hs. split.
  - intros Hx. apply list_elem_of_lookup in Hx as [j Hj].
    assert (Hlt : (j < Z.to_nat size)%nat).
    { apply lookup_lt_Some in Hj.
      pose proof (length_entries hp size Hs). lia. }
    rewrite lookup_entries in Hj by exact Hlt.
    exists (Z.of_nat (S j)). split; [lia|].
    unfold at_. rewrite Nat2Z.id.
    apply list_lookup_total_correct. exact Hj.
  - intros (i & Hi & <-). apply list_elem_of_lookup.
    exists (Z.to_nat i - 1)%nat.
    rewrite lookup_entries by lia.
    replace (S (Z.to_nat i - 1)) with (Z.to_nat i) by lia.
    apply lookup_slot. lia.
Qed.

Lemma entries_swapped (hp : list Z) (size a b : Z) :
  0 <= size < Z.of_nat (length hp) ->
  1 <= a <= size -> 1 <= b <= size ->
  entries_of (swapped hp a b) size ≡ₚ entries_of hp size.
Proof.
  intros Hs Ha Hb. unfold swapped, entries_of.
  rewrite !drop_insert_ge by lia.
  rewrite !take_insert_lt by lia.
  apply Permutation_insert_swap.
  - fold (entries_of hp size). rewrite lookup_entries by lia.
    replace (S (Z.to_nat a - 1)) with (Z.to_nat a) by lia.
    apply lookup_slot. lia.
  - fold (entries_of hp size). rewrite lookup_entries by lia.
    replace (S (Z.to_nat b - 1)) with (Z.to_nat b) by lia.
    apply lookup_slot. lia.
Qed.

Lemma indices_ok_slot prio hp size i :
  0 <= size < Z.of_nat (length hp) ->
  indices_ok prio hp size -> 1 <= i <= size ->
  0 <= at_ hp i < Z.of_nat (length prio).
Proof.
  intros Hs Hok Hi. unfold indices_ok in Hok.
  rewrite Forall_forall in Hok. apply Hok.
  apply elem_of_entries; [exact Hs|]. exists i. split; [exact Hi|reflexivity].
Qed.

Lemma indices_ok_perm prio hp hp' size :
  entries_of hp' size ≡ₚ entries_of hp size ->
  indices_ok prio hp size -> indices_ok prio hp' size.
Proof.
  unfold indices_ok. intros Hp Hok. rewrite Hp. exact Hok.
Qed.

Lemma key_in_range prio hp size i :
  0 <= size < Z.of_nat (length hp) ->
  indices_ok prio hp size -> 1 <= i <= size ->
  key prio hp i = Returned (key_at prio hp i).
Proof.
  intros Hs Hok Hi. unfold key, key_at.
  rewrite (read_in_range hp i) by lia. simpl.
  apply read_in_range. eapply indices_ok_slot; eassumption.
Qed.

Lemma key_at_swapped prio hp a b i :
  0 <= a < Z.of_nat (length hp) -> 0 <= b < Z.of_nat (length hp) -> 0 <= i ->
  key_at prio (swapped hp a b) i
  = if i =? a then key_at prio hp b
    else if i =? b then key_at prio hp a
    else key_at prio hp i.
Proof.
  intros Ha Hb Hi. unfold key_at. rewrite at_swapped by assumption.
  destruct (i =? a); [reflexivity|]. destruct (i =? b); reflexivity.
Qed.

(** *** Order over a key function *)

Lemma half_bounds i : 2 <= i -> 1 <= i / 2 < i.
Proof. intros Hi. Z.div_mod_to_equations. lia. Qed.

Lemma ordered_up_ok k size ii : ordered_keys k size -> up_ok k size ii.
Proof.
  intros Ho. split.
  - intros i Hi _. apply Ho. exact Hi.
  - intros i Hi Hp Hii. subst ii.
    pose proof (half_bounds i ltac:(lia)).
    etransitivity; [apply Ho; lia | apply Ho; lia].
Qed.

Lemma up_ok_root k size : up_ok k size 1 -> ordered_keys k size.
Proof.
  intros [H1 _] i Hi.
  destruct (Z.eq_dec i 1); [lia|]. apply H1; assumption.
Qed.

Lemma up_ok_stop k size ii :
  2 <= ii <= size -> up_ok k size ii -> k (ii / 2) <= k ii ->
  ordered_keys k size.
Proof.
  intros Hii [H1 _] Hle i Hi.
  destruct (Z.eq_dec i ii) as [->|Hne]; [exact Hle|]. apply H1; assumption.
Qed.

Lemma up_ok_step k k' size ii :
  2 <= ii <= size -> up_ok k size ii -> k ii <= k (ii / 2) ->
  exchanged k k' size ii (ii / 2) ->
  up_ok k' size (ii / 2).
Proof.
  intros Hii [H1 H2] Hle Hx.
  pose proof (half_bounds ii ltac:(lia)) as Hp.
  assert (Hkp : k' (ii / 2) = k ii).
  { rewrite Hx by lia.
    destruct (Z.eqb_spec (ii / 2) ii); [lia|]. rewrite Z.eqb_refl. reflexivity. }
  assert (Hki : k' ii = k (ii / 2)).
  { rewrite Hx by lia. rewrite Z.eqb_refl. reflexivity. }
  assert (Hko : forall i, 1 <= i <= size -> i <> ii -> i <> ii / 2 -> k' i = k i).
  { intros i Hi Hn1 Hn2. rewrite Hx by lia.
    destruct (Z.eqb_spec i ii); [lia|].
    destruct (Z.eqb_spec i (ii / 2)); [lia|]. reflexivity. }
  split.
  - intros i Hi Hne.
    pose proof (half_bounds i ltac:(lia)) as Hh.
    destruct (Z.eq_dec i ii) as [->|Hni].
    + rewrite Hkp, Hki. exact Hle.
    + rewrite (Hko i) by lia.
      destruct (Z.eq_dec (i / 2) ii) as [Hpi|Hnpi].
      * rewrite Hpi, Hki. apply H2; lia.
      * destruct (Z.eq_dec (i / 2) (ii / 2)) as [Hsib|Hnsib].
        -- rewrite Hsib, Hkp. specialize (H1 i Hi Hni).
           rewrite Hsib in H1. lia.
        -- rewrite (Hko (i / 2)) by lia. apply H1; assumption.
  - intros i Hi Hpar Hp2.
    pose proof (half_bounds (ii / 2) Hp2) as Hg.
    rewrite (Hko (ii / 2 / 2)) by lia.
    assert (Hgp : k (ii / 2 / 2) <= k (ii / 2)) by (apply H1; lia).
    destruct (Z.eq_dec i ii) as [->|Hni].
    + rewrite Hki. exact Hgp.
    + pose proof (half_bounds i ltac:(lia)) as Hh.
      rewrite (Hko i) by lia.
      specialize (H1 i Hi Hni). rewrite Hpar in H1. lia.
Qed.

Lemma down_ok_root k k' size size' :
  size <= size' -> ordered_keys k size' ->
  (forall i, 2 <= i <= size -> k' i = k i) ->
  down_ok k' size 1.
Proof.
  intros Hs Ho Hk. split.
  - intros i Hi Hp.
    pose proof (half_bounds i ltac:(lia)) as Hh.
    rewrite !Hk by lia. apply Ho. lia.
  - intros i _ _ Hv. lia.
Qed.

Lemma up_ok_decrease k k' size ii :
  ordered_keys k size -> 1 <= ii <= size ->
  (forall i, 1 <= i <= size -> i <> ii -> k' i = k i) ->
  k' ii <= k ii ->
  up_ok k' size ii.
Proof.
  intros Ho Hii Hk Hle. split.
  - intros i Hi Hne.
    pose proof (half_bounds i ltac:(lia)) as Hh.
    rewrite (Hk i) by lia.
    destruct (Z.eq_dec (i / 2) ii) as [Hp|Hp].
    + rewrite Hp. specialize (Ho i Hi). rewrite Hp in Ho. lia.
    + rewrite (Hk (i / 2)) by lia. apply Ho. exact Hi.
  - intros i Hi Hp Hii2.
    pose proof (half_bounds i ltac:(lia)) as Hh.
    pose proof (half_bounds ii Hii2) as Hg.
    rewrite (Hk i) by lia. rewrite (Hk (ii / 2)) by lia.
    specialize (Ho i Hi) as Hoi. rewrite Hp in Hoi.
    specialize (Ho ii ltac:(lia)). lia.
Qed.

Lemma up_ok_leaf k k' size :
  ordered_keys k size ->
  (forall i, 1 <= i <= size -> k' i = k i) ->
  up_ok k' (size + 1) (size + 1).
Proof.
  intros Ho Hk. split.
  - intros i Hi Hne.
    pose proof (half_bounds i ltac:(lia)) as Hh.
    rewrite !Hk by lia. apply Ho. lia.
  - intros i Hi Hp _.
    pose proof (half_bounds i ltac:(lia)) as Hh. lia.
Qed.

Lemma down_ok_stop k size vv :
  down_ok k size vv ->
  (forall i, 2 <= i <= size -> i / 2 = vv -> k vv <= k i) ->
  ordered_keys k size.
Proof.
  intros [H1 _] Hc i Hi.
  destruct (Z.eq_dec (i / 2) vv) as [Hp|Hp].
  - rewrite Hp. apply Hc; assumption.
  - apply H1; assumption.
Qed.

Lemma down_ok_step k k' size uu c :
  1 <= uu -> 2 <= c <= size -> c / 2 = uu ->
  down_ok k size uu -> k c <= k uu ->
  (forall i, 2 <= i <= size -> i / 2 = uu -> k c <= k i) ->
  exchanged k k' size uu c ->
  down_ok k' size c.
Proof.
  intros Hu Hc Hpc [H1 H2] Hle Hmin Hx.
  pose proof (half_bounds c ltac:(lia)) as Hcb.
  assert (Hku : k' uu = k c).
  { rewrite Hx by lia. rewrite Z.eqb_refl. reflexivity. }
  assert (Hkc : k' c = k uu).
  { rewrite Hx by lia.
    destruct (Z.eqb_spec c uu); [lia|]. rewrite Z.eqb_refl. reflexivity. }
  assert (Hko : forall i, 1 <= i <= size -> i <> uu -> i <> c -> k' i = k i).
  { intros i Hi Hn1 Hn2. rewrite Hx by lia.
    destruct (Z.eqb_spec i uu); [lia|].
    destruct (Z.eqb_spec i c); [lia|]. reflexivity. }
  split.
  - intros i Hi Hne.
    pose proof (half_bounds i ltac:(lia)) as Hh.
    destruct (Z.eq_dec i c) as [->|Hnc].
    + rewrite Hpc, Hku, Hkc. exact Hle.
    + destruct (Z.eq_dec (i / 2) uu) as [Hpu|Hnpu].
      * rewrite Hpu, Hku.
        assert (i <> uu) by lia.
        rewrite (Hko i) by lia. apply Hmin; assumption.
      * rewrite (Hko (i / 2)) by lia.
        destruct (Z.eq_dec i uu) as [->|Hnu].
        -- rewrite Hku. apply H2; lia.
        -- rewrite (Hko i) by lia. apply H1; assumption.
  - intros i Hi Hpar _.
    pose proof (half_bounds i ltac:(lia)) as Hh.
    rewrite Hpc, Hku.
    assert (i <> uu) by lia. assert (i <> c) by lia.
    rewrite (Hko i) by lia.
    specialize (H1 i Hi ltac:(lia)). rewrite Hpar in H1. exact H1.
Qed.

Lemma root_is_least k size :
  ordered_keys k size -> forall i, 1 <= i <= size -> k 1 <= k i.
Proof.
  intros Ho.
  assert (Hm : forall m : nat, forall i,
             1 <= i <= size -> (Z.to_nat i <= m)%nat -> k 1 <= k i).
  { induction m as [|m IH]; intros i Hi Hm; [lia|].
    destruct (Z.eq_dec i 1) as [->|Hne]; [lia|].
    pose proof (half_bounds i ltac:(lia)) as Hh.
    etransitivity; [apply (IH (i / 2)); lia | apply Ho; lia]. }
  intros i Hi. apply (Hm (Z.to_nat i)); [exact Hi|lia].
Qed.

(** *** The two sifting loops *)

Lemma exchanged_swapped prio hp size a b :
  0 <= size < Z.of_nat (length hp) ->
  1 <= a <= size -> 1 <= b <= size ->
  exchanged (key_at prio hp) (key_at prio (swapped hp a b)) size a b.
Proof.
  intros Hs Ha Hb i Hi. apply key_at_swapped; lia.
Qed.

Lemma shiftr_half ii : Z.shiftr ii 1 = ii / 2.
Proof. rewrite Z.shiftr_div_pow2 by lia. reflexivity. Qed.

Lemma shiftl_double uu : Z.shiftl uu 1 = uu * 2.
Proof. rewrite Z.shiftl_mul_pow2 by lia. reflexivity. Qed.

Lemma bubble_up_loop_spec fuel : forall prio hp size ii,
  0 <= size < Z.of_nat (length hp) ->
  indices_ok prio hp size ->
  1 <= ii <= size ->
  (Z.to_nat ii <= fuel)%nat ->
  exists hp',
    bubble_up_loop fuel prio hp ii = Returned hp'
    /\ length hp' = length hp
    /\ entries_of hp' size ≡ₚ entries_of hp size
    /\ (up_ok (key_at prio hp) size ii -> ordered_keys (key_at prio hp') size).
Proof.
  induction fuel as [|fuel IH]; intros prio hp size ii Hs Hok Hii Hfuel; [lia|].
  simpl. destruct (Z.eqb_spec ii 1) as [->|Hne]; simpl.
  - exists hp. split; [reflexivity|]. split; [reflexivity|].
    split; [reflexivity|]. apply up_ok_root.
  - rewrite shiftr_half.
    pose proof (half_bounds ii ltac:(lia)) as Hh.
    rewrite (key_in_range prio hp size ii) by (assumption || lia). simpl.
    rewrite (key_in_range prio hp size (ii / 2)) by (assumption || lia). simpl.
    destruct (Z.leb_spec (key_at prio hp ii) (key_at prio hp (ii / 2)))
      as [Hle|Hgt].
    + rewrite swap_in_range by lia. simpl.
      assert (Hperm : entries_of (swapped hp ii (ii / 2)) size
                      ≡ₚ entries_of hp size)
        by (apply entries_swapped; lia).
      destruct (IH prio (swapped hp ii (ii / 2)) size (ii / 2))
        as (hp' & Hrun & Hlen & Hp & Hord).
      * rewrite length_swapped. exact Hs.
      * eapply indices_ok_perm; eassumption.
      * lia.
      * lia.
      * exists hp'. split; [exact Hrun|].
        split; [rewrite Hlen; apply length_swapped|].
        split; [rewrite Hp; exact Hperm|].
        intros Hup. apply Hord.
        eapply up_ok_step; [| exact Hup | exact Hle |].
        -- lia.
        -- apply exchanged_swapped; lia.
    + exists hp. split; [reflexivity|]. split; [reflexivity|].
      split; [reflexivity|].
      intros Hup. eapply up_ok_stop; [| exact Hup |]; lia.
Qed.

Lemma bubble_up_spec h ii :
  0 <= size_ h < Z.of_nat (length (heap h)) ->
  indices_ok (priorities h) (heap h) (size_ h) ->
  1 <= ii <= size_ h ->
  exists hp',
    bubble_up h ii
    = Returned {| priorities := priorities h; heap := hp'; size_ := size_ h |}
    /\ length hp' = length (heap h)
    /\ entries_of hp' (size_ h) ≡ₚ entries_of (heap h) (size_ h)
    /\ (up_ok (key_at (priorities h) (heap h)) (size_ h) ii ->
        ordered_keys (key_at (priorities h) hp') (size_ h)).
Proof.
  intros Hs Hok Hii.
  destruct (bubble_up_loop_spec (S (Z.to_nat ii)) (priorities h) (heap h)
              (size_ h) ii Hs Hok Hii ltac:(lia))
    as (hp' & Hrun & Hrest).
  exists hp'. split; [|exact Hrest].
  unfold bubble_up. rewrite Hrun. reflexivity.
Qed.

Lemma children i uu : 1 <= uu -> i / 2 = uu -> i = uu * 2 \/ i = uu * 2 + 1.
Proof. intros Hu Hi. Z.div_mod_to_equations. lia. Qed.

Lemma pop_select_spec prio hp size uu :
  Z.of_nat (length hp) = heap_slots ->
  0 <= size < heap_slots ->
  indices_ok prio hp size ->
  1 <= uu <= heap_slots ->
  exists vv,
    pop_select prio hp size uu = Returned vv
    /\ ((vv = uu
         /\ forall i, 2 <= i <= size -> i / 2 = uu ->
                      key_at prio hp uu <= key_at prio hp i)
        \/ (2 <= vv <= size /\ vv / 2 = uu
            /\ key_at prio hp vv <= key_at prio hp uu
            /\ forall i, 2 <= i <= size -> i / 2 = uu ->
                         key_at prio hp vv <= key_at prio hp i)).
Proof.
  intros Hlen Hs Hok Hu. unfold pop_select, heap_slots in *.
  rewrite shiftl_double.
  assert (Hl : usize (uu * 2) = uu * 2)
    by (unfold usize; apply Z.mod_small; lia).
  rewrite Hl.
  assert (Hr : usize (uu * 2 + 1) = uu * 2 + 1)
    by (unfold usize; apply Z.mod_small; lia).
  rewrite Hr.
  assert (Hhalf_l : uu * 2 / 2 = uu) by (Z.div_mod_to_equations; lia).
  assert (Hhalf_r : (uu * 2 + 1) / 2 = uu) by (Z.div_mod_to_equations; lia).
  destruct (Z.leb_spec (uu * 2 + 1) size) as [Hboth|Hnr].
  - rewrite (key_in_range prio hp size uu) by (assumption || lia). simpl.
    rewrite (key_in_range prio hp size (uu * 2)) by (assumption || lia). simpl.
    rewrite Z.geb_leb.
    destruct (Z.leb_spec (key_at prio hp (uu * 2)) (key_at prio hp uu))
      as [Hlu|Hul].
    + rewrite (key_in_range prio hp size (uu * 2)) by (assumption || lia). simpl.
      rewrite (key_in_range prio hp size (uu * 2 + 1)) by (assumption || lia).
      simpl. rewrite Z.geb_leb.
      destruct (Z.leb_spec (key_at prio hp (uu * 2 + 1)) (key_at prio hp (uu * 2)))
        as [Hrl|Hlr].
      * exists (uu * 2 + 1). split; [reflexivity|]. right.
        split; [lia|]. split; [exact Hhalf_r|]. split; [lia|].
        intros i Hi Hp. destruct (children i uu ltac:(lia) Hp) as [->| ->]; lia.
      * exists (uu * 2). split; [reflexivity|]. right.
        split; [lia|]. split; [exact Hhalf_l|]. split; [lia|].
        intros i Hi Hp. destruct (children i uu ltac:(lia) Hp) as [->| ->]; lia.
    + rewrite (key_in_range prio hp size uu) by (assumption || lia). simpl.
      rewrite (key_in_range prio hp size (uu * 2 + 1)) by (assumption || lia).
      simpl. rewrite Z.geb_leb.
      destruct (Z.leb_spec (key_at prio hp (uu * 2 + 1)) (key_at prio hp uu))
        as [Hru|Hur].
      * exists (uu * 2 + 1). split; [reflexivity|]. right.
        split; [lia|]. split; [exact Hhalf_r|]. split; [lia|].
        intros i Hi Hp. destruct (children i uu ltac:(lia) Hp) as [->| ->]; lia.
      * exists uu. split; [reflexivity|]. left. split; [reflexivity|].
        intros i Hi Hp. destruct (children i uu ltac:(lia) Hp) as [->| ->]; lia.
  - destruct (Z.leb_spec (uu * 2) size) as [Hleft|Hnl].
    + rewrite (key_in_range prio hp size uu) by (assumption || lia). simpl.
      rewrite (key_in_range prio hp size (uu * 2)) by (assumption || lia). simpl.
      rewrite Z.geb_leb.
      destruct (Z.leb_spec (key_at prio hp (uu * 2)) (key_at prio hp uu))
        as [Hlu|Hul].
      * exists (uu * 2). split; [reflexivity|]. right.
        split; [lia|]. split; [exact Hhalf_l|]. split; [lia|].
        intros i Hi Hp. destruct (children i uu ltac:(lia) Hp) as [->| ->]; lia.
      * exists uu. split; [reflexivity|]. left. split; [reflexivity|].
        intros i Hi Hp. destruct (children i uu ltac:(lia) Hp) as [->| ->]; lia.
    + exists uu. split; [reflexivity|]. left. split; [reflexivity|].
      intros i Hi Hp. destruct (children i uu ltac:(lia) Hp) as [->| ->]; lia.
Qed.

Lemma pop_loop_spec fuel : forall prio hp size vv,
  Z.of_nat (length hp) = heap_slots ->
  0 <= size < heap_slots ->
  indices_ok prio hp size ->
  1 <= vv <= heap_slots ->
  (Z.to_nat (heap_slots - vv) < fuel)%nat ->
  exists hp',
    pop_loop fuel prio hp size vv = Returned hp'
    /\ length hp' = length hp
    /\ entries_of hp' size ≡ₚ entries_of hp size
    /\ (down_ok (key_at prio hp) size vv -> ordered_keys (key_at prio hp') size).
Proof.
  induction fuel as [|fuel IH]; intros prio hp size vv Hlen Hs Hok Hv Hfuel; [lia|].
  simpl.
  destruct (pop_select_spec prio hp size vv Hlen Hs Hok Hv)
    as (vv' & Hsel & [[-> Hstop] | (Hc & Hpar & Hle & Hmin)]);
    rewrite Hsel; simpl.
  - rewrite Z.eqb_refl. simpl.
    exists hp. split; [reflexivity|]. split; [reflexivity|].
    split; [reflexivity|].
    intros Hd. eapply down_ok_stop; eassumption.
  - pose proof (half_bounds vv' ltac:(lia)) as Hh.
    destruct (Z.eqb_spec vv vv') as [Heq|Hne]; [lia|]. simpl.
    unfold heap_slots in *.
    rewrite swap_in_range by lia. simpl.
    assert (Hperm : entries_of (swapped hp vv vv') size ≡ₚ entries_of hp size)
      by (apply entries_swapped; lia).
    destruct (IH prio (swapped hp vv vv') size vv')
      as (hp' & Hrun & Hlen' & Hp & Hord).
    + rewrite length_swapped. exact Hlen.
    + exact Hs.
    + eapply indices_ok_perm; eassumption.
    + lia.
    + lia.
    + exists hp'. split; [exact Hrun|].
      split; [rewrite Hlen'; apply length_swapped|].
      split; [rewrite Hp; exact Hperm|].
      intros Hd. apply Hord.
      eapply down_ok_step; [| | exact Hpar | exact Hd | exact Hle | exact Hmin |].
      * lia.
      * lia.
      * apply exchanged_swapped; lia.
Qed.

(** *** [pop] *)

Lemma well_formed_indices_ok capacity h :
  well_formed capacity h ->
  indices_ok (priorities h) (heap h) (size_ h).
Proof.
  intros [Hp _ _ He]. unfold indices_ok. rewrite Hp. exact He.
Qed.

Lemma pop_entries (hp : list Z) (size : Z) :
  1 <= size < Z.of_nat (length hp) ->
  at_ hp 1 :: entries_of (<[Z.to_nat 1 := at_ hp size]> hp) (size - 1)
  ≡ₚ entries_of hp size.
Proof.
  intros Hs. unfold entries_of.
  rewrite drop_insert_ge by lia.
  replace (Z.to_nat 1 - 1)%nat with 0%nat by lia.
  assert (Hlast : drop 1 hp !! Z.to_nat (size - 1) = Some (at_ hp size)).
  { rewrite lookup_drop.
    replace (1 + Z.to_nat (size - 1))%nat with (Z.to_nat size) by lia.
    apply lookup_slot. lia. }
  assert (Hfirst : drop 1 hp !! 0%nat = Some (at_ hp 1)).
  { rewrite lookup_drop. apply (lookup_slot hp 1). lia. }
  replace (Z.to_nat size) with (S (Z.to_nat (size - 1))) by lia.
  rewrite (take_S_r _ _ _ Hlast).
  destruct (Z.to_nat (size - 1)) as [|m] eqn:Hm.
  - assert (size = 1) by lia. subst size. simpl. reflexivity.
  - destruct (drop 1 hp) as [|x d]; [discriminate|].
    simpl in Hfirst. injection Hfirst as ->. simpl.
    apply perm_skip. apply Permutation_cons_append.
Qed.

Lemma pop_spec capacity h :
  well_formed capacity h -> 1 <= size_ h -> heap_ordered h ->
  exists hp',
    pop h = Returned
              ((at_ (heap h) 1, key_at (priorities h) (heap h) 1),
               {| priorities := priorities h; heap := hp';
                  size_ := size_ h - 1 |})
    /\ length hp' = length (heap h)
    /\ at_ (heap h) 1 :: entries_of hp' (size_ h - 1) ≡ₚ entries h
    /\ ordered (priorities h) hp' (size_ h - 1).
Proof.
  intros Hwf Hne Hord.
  pose proof (well_formed_indices_ok _ _ Hwf) as Hok.
  destruct Hwf as [Hp Hh Hsz He]. unfold heap_slots in *.
  unfold pop.
  rewrite (read_in_range (heap h) 1) by lia. run_bind.
  rewrite (read_in_range (priorities h) (at_ (heap h) 1))
    by (apply (indices_ok_slot _ _ (size_ h)); (assumption || lia)).
  run_bind.
  rewrite (read_in_range (heap h) (size_ h)) by lia. run_bind.
  rewrite write_in_range by lia. run_bind.
  assert (Hu : usize (size_ h - 1) = size_ h - 1)
    by (unfold usize; apply Z.mod_small; lia).
  rewrite Hu.
  set (hp1 := <[Z.to_nat 1 := at_ (heap h) (size_ h)]> (heap h)).
  assert (Hlen1 : length hp1 = length (heap h)) by apply length_insert.
  pose proof (pop_entries (heap h) (size_ h) ltac:(lia)) as Hperm1.
  fold hp1 in Hperm1.
  assert (Hok1 : indices_ok (priorities h) hp1 (size_ h - 1)).
  { unfold indices_ok in *. rewrite <- Hperm1 in Hok.
    apply Forall_cons in Hok as [_ Hok]. exact Hok. }
  destruct (pop_loop_spec (S (length hp1)) (priorities h) hp1 (size_ h - 1) 1)
    as (hp' & Hrun & Hlen' & Hperm & Hordered).
  - unfold heap_slots. lia.
  - unfold heap_slots. lia.
  - exact Hok1.
  - unfold heap_slots. lia.
  - unfold heap_slots. lia.
  - rewrite Hrun. run_bind. exists hp'.
    split; [reflexivity|]. split; [lia|].
    split; [rewrite Hperm; exact Hperm1|].
    apply Hordered.
    apply (down_ok_root (key_at (priorities h) (heap h)) _ _ (size_ h)).
    + lia.
    + exact Hord.
    + intros i Hi. unfold key_at, hp1. rewrite at_write_other by lia.
      reflexivity.
Qed.

(** *** [insert] *)

Lemma insert_entries (hp : list Z) (size index : Z) :
  0 <= size -> size + 1 < Z.of_nat (length hp) ->
  entries_of (<[Z.to_nat (size + 1) := index]> hp) (size + 1)
  = entries_of hp size ++ [index].
Proof.
  intros Hs Hlen. unfold entries_of.
  rewrite drop_insert_ge by lia.
  replace (Z.to_nat (size + 1) - 1)%nat with (Z.to_nat size) by lia.
  replace (Z.to_nat (size + 1)) with (S (Z.to_nat size)) by lia.
  rewrite (take_S_r _ _ index).
  - rewrite take_insert_ge by lia. reflexivity.
  - apply list_lookup_insert_eq. rewrite length_drop. lia.
Qed.

Lemma insert_spec capacity h index priority :
  well_formed capacity h -> 0 <= index < capacity ->
  size_ h < heap_slots - 1 ->
  exists h',
    insert h index priority = Returned h'
    /\ priorities h' = <[Z.to_nat index := priority]> (priorities h)
    /\ size_ h' = size_ h + 1
    /\ entries h' ≡ₚ index :: entries h
    /\ well_formed capacity h'
    /\ (heap_ordered h -> index ∉ entries h -> heap_ordered h').
Proof.
  intros Hwf Hi Hroom.
  pose proof (well_formed_indices_ok _ _ Hwf) as Hok.
  destruct Hwf as [Hp Hh Hsz He]. unfold heap_slots in *.
  unfold insert, heap_slots.
  destruct (Z.eqb_spec (size_ h) (2500 - 1)) as [Hfull|_]; [lia|].
  rewrite (write_in_range (priorities h)) by lia. run_bind.
  assert (Hu : usize (size_ h + 1) = size_ h + 1)
    by (unfold usize; apply Z.mod_small; lia).
  rewrite Hu.
  rewrite write_in_range by lia. run_bind.
  set (prio := <[Z.to_nat index := priority]> (priorities h)).
  set (hp := <[Z.to_nat (size_ h + 1) := index]> (heap h)).
  assert (Hent : entries_of hp (size_ h + 1) = entries h ++ [index])
    by (apply insert_entries; lia).
  destruct (bubble_up_spec
              {| priorities := prio; heap := hp; size_ := size_ h + 1 |}
              (size_ h + 1))
    as (hp' & Hrun & Hlen' & Hperm & Hordered); simpl.
  - unfold hp. rewrite length_insert. lia.
  - unfold indices_ok. rewrite Hent. unfold prio. rewrite length_insert.
    apply Forall_app. split; [exact Hok|].
    apply Forall_singleton. lia.
  - lia.
  - simpl in *. rewrite Hrun. eexists. split; [reflexivity|]. simpl.
    split; [reflexivity|]. split; [reflexivity|].
    assert (Hfinal : entries_of hp' (size_ h + 1) ≡ₚ index :: entries h).
    { rewrite Hperm, Hent. symmetry. apply Permutation_cons_append. }
    split; [exact Hfinal|].
    split; [split; simpl|].
    + unfold prio. rewrite length_insert. exact Hp.
    + rewrite Hlen'. unfold hp. rewrite length_insert. exact Hh.
    + unfold heap_slots. lia.
    + unfold entries. simpl. rewrite Hfinal.
      apply Forall_cons. split; [exact Hi|exact He].
    + intros Hord Hfresh. apply Hordered.
      apply (up_ok_leaf (key_at (priorities h) (heap h))); [exact Hord|].
      intros i Hbound. unfold key_at, hp, prio.
      rewrite (at_write_other (heap h)) by lia.
      assert (Hslot : 0 <= at_ (heap h) i < Z.of_nat (length (priorities h)))
        by (apply (indices_ok_slot _ _ (size_ h)); (assumption || lia)).
      apply at_write_other; [lia|lia|].
      intros ->. apply Hfresh.
      apply elem_of_entries; [lia|]. exists i. split; [lia|reflexivity].
Qed.

(** *** Outcomes the loops cannot have *)

Lemma plain_bind {A B : Type} (m : outcome A) (f : A -> outcome B) :
  plain m -> (forall a, plain (f a)) -> plain (m ≫= f).
Proof.
  intros [[a ->] | ->] Hf; run_bind; [apply Hf|right; reflexivity].
Qed.

Lemma plain_Returned {A : Type} (a : A) : plain (Returned a).
Proof. left. exists a. reflexivity. Qed.

Lemma read_plain {A : Type} (a : list A) i : plain (read a i).
Proof.
  unfold read. destruct (i <? 0); [right; reflexivity|].
  destruct (a !! Z.to_nat i); [apply plain_Returned|right; reflexivity].
Qed.

Lemma write_plain {A : Type} (a : list A) i v : plain (write a i v).
Proof.
  unfold write.
  destruct (_ && _); [apply plain_Returned|right; reflexivity].
Qed.

Lemma key_plain prio hp i : plain (key prio hp i).
Proof.
  unfold key. apply plain_bind; [apply read_plain|].
  intros x. apply read_plain.
Qed.

Lemma swap_plain hp a b : plain (swap hp a b).
Proof.
  unfold swap. apply plain_bind; [apply read_plain|]. intros x.
  apply plain_bind; [apply read_plain|]. intros y.
  apply plain_bind; [apply write_plain|]. intros hp1.
  apply write_plain.
Qed.

Lemma swap_length hp a b hp' :
  swap hp a b = Returned hp' -> length hp' = length hp.
Proof.
  unfold swap.
  destruct (read hp a) as [x| | |]; run_bind; try discriminate.
  destruct (read hp b) as [y| | |]; run_bind; try discriminate.
  destruct (write hp a y) as [hp1| | |] eqn:Hw1; run_bind; try discriminate.
  intros Hw2.
  apply write_Returned in Hw1 as [_ ->].
  apply write_Returned in Hw2 as [_ ->].
  rewrite !length_insert. reflexivity.
Qed.

Lemma pop_select_plain prio hp size uu : plain (pop_select prio hp size uu).
Proof.
  unfold pop_select.
  destruct (_ <=? size).
  - apply plain_bind; [apply key_plain|]. intros pu.
    apply plain_bind; [apply key_plain|]. intros pl.
    apply plain_bind; [apply key_plain|]. intros pv.
    apply plain_bind; [apply key_plain|]. intros pr.
    apply plain_Returned.
  - destruct (_ <=? size); [|apply plain_Returned].
    apply plain_bind; [apply key_plain|]. intros pu.
    apply plain_bind; [apply key_plain|]. intros pl.
    apply plain_Returned.
Qed.

(** Splits on a plain computation at the head of a bind; the undefined
    case is closed by [discriminate] where that applies. *)
Ltac plain_case H x :=
  destruct H as [[x ->] | ->]; run_bind; [|try discriminate].

Lemma bubble_up_loop_not_thrown fuel : forall prio hp ii what,
  bubble_up_loop fuel prio hp ii <> Thrown what.
Proof.
  induction fuel as [|fuel IH]; intros prio hp ii what; simpl; [discriminate|].
  destruct (negb (ii =? 1)); [|discriminate].
  plain_case (key_plain prio hp ii) a.
  plain_case (key_plain prio hp (Z.shiftr ii 1)) b.
  destruct (a <=? b); [|discriminate].
  plain_case (swap_plain hp ii (Z.shiftr ii 1)) hp'.
  apply IH.
Qed.


(** From [ii = 0] it compares slot 0 with itself for ever, unless reading
    slot 0 is already undefined: no amount of fuel makes it return. *)
Lemma bubble_up_loop_zero fuel : forall prio hp,
  bubble_up_loop fuel prio hp 0 = OutOfFuel
  \/ bubble_up_loop fuel prio hp 0 = Undefined.
Proof.
  induction fuel as [|fuel IH]; intros prio hp; simpl; [left; reflexivity|].
  change (Z.shiftr 0 1) with 0.
  destruct (key_plain prio hp 0) as [[a ->] | ->]; run_bind;
    [|right; reflexivity].
  rewrite Z.leb_refl.
  destruct (swap_plain hp 0 0) as [[hp' ->] | ->]; run_bind;
    [apply IH|right; reflexivity].
Qed.

Lemma pop_loop_not_thrown fuel : forall prio hp size vv what,
  pop_loop fuel prio hp size vv <> Thrown what.
Proof.
  induction fuel as [|fuel IH]; intros prio hp size vv what; simpl;
    [discriminate|].
  plain_case (pop_select_plain prio hp size vv) vv'.
  destruct (negb (vv =? vv')); [|discriminate].
  plain_case (swap_plain hp vv vv') hp'.
  apply IH.
Qed.

(** A round of the loop of [pop] that does not end it moves [vv] to a
    larger slot that was read, hence to a slot inside the array. *)
Lemma pop_select_grows prio hp size uu vv :
  Z.of_nat (length hp) = heap_slots -> 1 <= uu ->
  pop_select prio hp size uu = Returned vv -> vv <> uu ->
  uu < vv < heap_slots.
Proof.
  intros Hlen Hu. unfold pop_select, key.
  rewrite shiftl_double.
  destruct (read_plain hp uu) as [[xu Hxu] | Hxu].
  2:{ rewrite Hxu. repeat (destruct (_ <=? size); run_bind); try discriminate.
      intros [= <-]. contradiction. }
  assert (Huu : uu < heap_slots).
  { revert Hxu. unfold read. destruct (uu <? 0); [discriminate|].
    destruct (hp !! Z.to_nat uu) eqn:Hl; [|discriminate].
    apply lookup_lt_Some in Hl. lia. }
  unfold heap_slots in *.
  assert (Hl : usize (uu * 2) = uu * 2)
    by (unfold usize; apply Z.mod_small; lia).
  rewrite Hl.
  assert (Hr : usize (uu * 2 + 1) = uu * 2 + 1)
    by (unfold usize; apply Z.mod_small; lia).
  rewrite Hr.
  assert (Hin : forall i x, read hp i = Returned x -> i < 2500).
  { intros i x. unfold read. destruct (i <? 0); [discriminate|].
    destruct (hp !! Z.to_nat i) eqn:Hl'; [|discriminate].
    apply lookup_lt_Some in Hl'. lia. }
  destruct (uu * 2 + 1 <=? size).
  - rewrite Hxu. run_bind.
    destruct (read prio xu) as [pu| | |]; run_bind; try discriminate.
    destruct (read hp (uu * 2)) as [xl| | |] eqn:Hxl; run_bind; try discriminate.
    destruct (read prio xl) as [pl| | |]; run_bind; try discriminate.
    destruct (pu >=? pl).
    + rewrite Hxl. run_bind.
      destruct (read prio xl) as [pv| | |]; run_bind; try discriminate.
      destruct (read hp (uu * 2 + 1)) as [xr| | |] eqn:Hxr; run_bind;
        try discriminate.
      destruct (read prio xr) as [pr| | |]; run_bind; try discriminate.
      apply Hin in Hxl. apply Hin in Hxr.
      destruct (pv >=? pr); intros [= <-] _; lia.
    + rewrite Hxu. run_bind.
      destruct (read prio xu) as [pv| | |]; run_bind; try discriminate.
      destruct (read hp (uu * 2 + 1)) as [xr| | |] eqn:Hxr; run_bind;
        try discriminate.
      destruct (read prio xr) as [pr| | |]; run_bind; try discriminate.
      apply Hin in Hxr.
      destruct (pv >=? pr); intros [= <-] Hne; [lia|contradiction].
  - destruct (uu * 2 <=? size).
    + rewrite Hxu. run_bind.
      destruct (read prio xu) as [pu| | |]; run_bind; try discriminate.
      destruct (read hp (uu * 2)) as [xl| | |] eqn:Hxl; run_bind;
        try discriminate.
      destruct (read prio xl) as [pl| | |]; run_bind; try discriminate.
      apply Hin in Hxl.
      destruct (pu >=? pl); intros [= <-] Hne; [lia|contradiction].
    + intros [= <-] Hne. contradiction.
Qed.

(** So the loop of [pop] ends within one round per slot, whatever the
    arrays hold. *)
Lemma pop_loop_fuel fuel : forall prio hp size vv,
  Z.of_nat (length hp) = heap_slots -> 1 <= vv ->
  (Z.to_nat (heap_slots - vv) < fuel)%nat ->
  pop_loop fuel prio hp size vv <> OutOfFuel.
Proof.
  induction fuel as [|fuel IH]; intros prio hp size vv Hlen Hv Hfuel; [lia|].
  simpl.
  destruct (pop_select_plain prio hp size vv) as [[vv' Hsel] | Hsel];
    rewrite Hsel; run_bind; [|discriminate].
  destruct (Z.eqb_spec vv vv') as [Heq|Hne]; simpl; [discriminate|].
  pose proof (pop_select_grows prio hp size vv vv' Hlen Hv Hsel ltac:(lia)).
  destruct (swap_plain hp vv vv') as [[hp' Hsw] | Hsw];
    rewrite Hsw; run_bind; [|discriminate].
  apply IH; [|lia|lia].
  rewrite (swap_length _ _ _ _ Hsw). exact Hlen.
Qed.

Lemma insert_full h index priority :
  insert h index priority = Thrown "Max heap" <-> size_ h = heap_slots - 1.
Proof.
  unfold insert.
  destruct (Z.eqb_spec (size_ h) (heap_slots - 1)) as [Hfull|Hroom].
  - split; [intros _; exact Hfull | reflexivity].
  - split; [|contradiction]. intros Hthrown. exfalso. revert Hthrown.
    plain_case (write_plain (priorities h) index priority) prio.
    plain_case (write_plain (heap h) (usize (size_ h + 1)) index) hp.
    unfold bubble_up. cbn [priorities heap size_].
    destruct (bubble_up_loop _ _ _ _) as [hp'| | |] eqn:Hrun;
      run_bind; try discriminate.
    exfalso. eapply bubble_up_loop_not_thrown. exact Hrun.
Qed.


Lemma pop_not_out_of_fuel h :
  Z.of_nat (length (heap h)) = heap_slots -> pop h <> OutOfFuel.
Proof.
  intros Hlen. unfold pop.
  plain_case (read_plain (heap h) 1) x1.
  plain_case (read_plain (priorities h) x1) p1.
  plain_case (read_plain (heap h) (size_ h)) xn.
  destruct (write_plain (heap h) 1 xn) as [[hp Hw] | Hw];
    rewrite Hw; run_bind; [|discriminate].
  apply write_Returned in Hw as [_ ->].
  destruct (pop_loop _ _ _ _ _) as [hp'| | |] eqn:Hrun;
    run_bind; try discriminate.
  exfalso. revert Hrun. apply pop_loop_fuel.
  - rewrite length_insert. exact Hlen.
  - lia.
  - rewrite length_insert. unfold heap_slots in *. lia.
Qed.

(** *** Sequences of [insert] *)

Lemma insert_all_spec capacity (l : list (Z * Z)) : forall h,
  well_formed capacity h ->
  Forall (fun e => 0 <= e.1 < capacity) l ->
  size_ h + Z.of_nat (length l) <= heap_slots - 1 ->
  exists h',
    insert_all h l = Returned h'
    /\ size_ h' = size_ h + Z.of_nat (length l)
    /\ well_formed capacity h'.
Proof.
  induction l as [|[index priority] l IH]; intros h Hwf Hl Hroom.
  - exists h. simpl. split; [reflexivity|]. split; [lia|exact Hwf].
  - apply Forall_cons in Hl as [Hi Hl]. simpl in Hi, Hroom.
    destruct (insert_spec capacity h index priority Hwf Hi ltac:(lia))
      as (h1 & Hins & _ & Hsize & _ & Hwf1 & _).
    destruct (IH h1 Hwf1 Hl ltac:(lia)) as (h' & Hall & Hsize' & Hwf').
    exists h'. simpl. rewrite Hins. run_bind.
    split; [exact Hall|]. split; [lia|exact Hwf'].
Qed.

Lemma make_well_formed capacity priorities0 heap0 :
  Z.of_nat (length priorities0) = capacity ->
  Z.of_nat (length heap0) = heap_slots ->
  well_formed capacity (make priorities0 heap0).
Proof.
  intros Hp Hh. split; simpl; [exact Hp|exact Hh|unfold heap_slots; lia|].
  unfold entries, entries_of. simpl. rewrite take_0. constructor.
Qed.

(** *** [update] *)

Lemma slot_inj hp size i j :
  0 <= size < Z.of_nat (length hp) ->
  NoDup (entries_of hp size) ->
  1 <= i <= size -> 1 <= j <= size ->
  at_ hp i = at_ hp j -> i = j.
Proof.
  intros Hs Hnd Hi Hj Heq.
  assert (Hli : entries_of hp size !! (Z.to_nat i - 1)%nat = Some (at_ hp i)).
  { rewrite lookup_entries by lia.
    replace (S (Z.to_nat i - 1)) with (Z.to_nat i) by lia.
    apply lookup_slot. lia. }
  assert (Hlj : entries_of hp size !! (Z.to_nat j - 1)%nat = Some (at_ hp i)).
  { rewrite Heq. rewrite lookup_entries by lia.
    replace (S (Z.to_nat j - 1)) with (Z.to_nat j) by lia.
    apply lookup_slot. lia. }
  pose proof (NoDup_lookup _ _ _ _ Hnd Hli Hlj). lia.
Qed.

Lemma update_scan_found (k : nat) : forall h index priority,
  Z.of_nat k <= size_ h < Z.of_nat (length (heap h)) ->
  (exists i, 1 <= i <= Z.of_nat k /\ at_ (heap h) i = index) ->
  exists ii,
    1 <= ii <= Z.of_nat k /\ at_ (heap h) ii = index
    /\ update_scan k h index priority
       = (prio ← write (priorities h) index priority;
          bubble_up {| priorities := prio; heap := heap h; size_ := size_ h |}
                    ii).
Proof.
  induction k as [|k IH]; intros h index priority Hk (i & Hi & Hslot); [lia|].
  cbn [update_scan].
  rewrite (read_in_range (heap h) (Z.of_nat (S k))) by lia. run_bind.
  destruct (Z.eqb_spec (at_ (heap h) (Z.of_nat (S k))) index) as [Hhit|Hmiss].
  - exists (Z.of_nat (S k)). split; [lia|]. split; [exact Hhit|reflexivity].
  - destruct (IH h index priority ltac:(lia)) as (ii & Hii & Hat & Hrun).
    + exists i. split; [|exact Hslot].
      destruct (Z.eq_dec i (Z.of_nat (S k))) as [->|]; [contradiction|lia].
    + exists ii. split; [lia|]. split; [exact Hat|exact Hrun].
Qed.

Lemma update_scan_absent (k : nat) : forall h index priority,
  Z.of_nat k <= size_ h < Z.of_nat (length (heap h)) ->
  (forall i, 1 <= i <= Z.of_nat k -> at_ (heap h) i <> index) ->
  update_scan k h index priority = Returned h.
Proof.
  induction k as [|k IH]; intros h index priority Hk Habs; [reflexivity|].
  cbn [update_scan].
  rewrite (read_in_range (heap h) (Z.of_nat (S k))) by lia. run_bind.
  destruct (Z.eqb_spec (at_ (heap h) (Z.of_nat (S k))) index) as [Hhit|Hmiss].
  - exfalso. apply (Habs (Z.of_nat (S k))); [lia|exact Hhit].
  - apply IH; [lia|]. intros i Hi. apply Habs. lia.
Qed.

Lemma key_at_reprioritised prio hp index priority i :
  0 <= index < Z.of_nat (length prio) -> 0 <= at_ hp i ->
  key_at (<[Z.to_nat index := priority]> prio) hp i
  = if at_ hp i =? index then priority else key_at prio hp i.
Proof.
  intros Hidx Hslot. unfold key_at.
  destruct (Z.eqb_spec (at_ hp i) index) as [->|Hne].
  - apply at_write_same. exact Hidx.
  - apply at_write_other; lia.
Qed.

Lemma stored_once_elem capacity h index :
  well_formed capacity h -> stored_once h index -> index ∈ entries h.
Proof.
  intros [_ Hh Hsz _] (slot & Hslot & Hat & _). unfold heap_slots in *.
  apply elem_of_entries; [lia|]. exists slot. split; assumption.
Qed.

Lemma nodup_stored_once capacity h index :
  well_formed capacity h -> NoDup (entries h) -> index ∈ entries h ->
  stored_once h index.
Proof.
  intros [_ Hh Hsz _] Hnd Hin. unfold heap_slots in *.
  assert (Hs : 0 <= size_ h < Z.of_nat (length (heap h))) by lia.
  apply (elem_of_entries (heap h) (size_ h) index Hs) in Hin
    as (slot & Hslot & Hat).
  exists slot. split; [exact Hslot|]. split; [exact Hat|].
  intros other Hother Hdup.
  apply (slot_inj (heap h) (size_ h)); (assumption || congruence).
Qed.

Lemma update_spec capacity h index priority :
  well_formed capacity h -> heap_ordered h -> stored_once h index ->
  priority <= at_ (priorities h) index ->
  exists ii hp',
    1 <= ii <= size_ h /\ at_ (heap h) ii = index
    /\ update h index priority
       = bubble_up {| priorities := <[Z.to_nat index := priority]> (priorities h);
                      heap := heap h; size_ := size_ h |} ii
    /\ update h index priority
       = Returned {| priorities := <[Z.to_nat index := priority]> (priorities h);
                     heap := hp'; size_ := size_ h |}
    /\ length hp' = length (heap h)
    /\ entries_of hp' (size_ h) ≡ₚ entries h
    /\ ordered (<[Z.to_nat index := priority]> (priorities h)) hp' (size_ h).
Proof.
  intros Hwf Hord Honce Hle.
  pose proof (stored_once_elem _ _ _ Hwf Honce) as Hin.
  pose proof (well_formed_indices_ok _ _ Hwf) as Hok.
  destruct Hwf as [Hp Hh Hsz He]. unfold heap_slots in *.
  assert (Hs : 0 <= size_ h < Z.of_nat (length (heap h))) by lia.
  assert (Hidx : 0 <= index < Z.of_nat (length (priorities h))).
  { unfold indices_ok in Hok. rewrite Forall_forall in Hok.
    apply Hok. exact Hin. }
  apply (elem_of_entries (heap h) (size_ h) index Hs) in Hin.
  destruct (update_scan_found (Z.to_nat (size_ h)) h index priority)
    as (ii & Hii & Hat & Hrun).
  { lia. }
  { destruct Hin as (i & Hi & Hslot). exists i. split; [lia|exact Hslot]. }
  rewrite (write_in_range (priorities h)) in Hrun by exact Hidx.
  revert Hrun. run_bind. intros Hrun.
  set (prio := <[Z.to_nat index := priority]> (priorities h)) in *.
  destruct (bubble_up_spec
              {| priorities := prio; heap := heap h; size_ := size_ h |} ii)
    as (hp' & Hbub & Hlen' & Hperm & Hordered); cbn [priorities heap size_] in *.
  - exact Hs.
  - unfold indices_ok, prio. rewrite length_insert. exact Hok.
  - lia.
  - exists ii, hp'. fold (update h index priority) in Hrun.
    split; [lia|]. split; [exact Hat|]. split; [exact Hrun|].
    split; [rewrite Hrun; exact Hbub|].
    split; [exact Hlen'|]. split; [exact Hperm|].
    apply Hordered.
    apply (up_ok_decrease (key_at (priorities h) (heap h))); [exact Hord|lia| |].
    + intros i Hi Hne. unfold prio.
      rewrite key_at_reprioritised;
        [|exact Hidx|apply (indices_ok_slot (priorities h) _ (size_ h)); assumption].
      destruct (Z.eqb_spec (at_ (heap h) i) index) as [Hdup|]; [|reflexivity].
      exfalso. apply Hne.
      destruct Honce as (slot & _ & _ & Hunique).
      rewrite (Hunique i Hi Hdup). rewrite (Hunique ii ltac:(lia) Hat).
      reflexivity.
    + unfold prio.
      rewrite key_at_reprioritised;
        [|exact Hidx|apply (indices_ok_slot (priorities h) _ (size_ h)); (assumption || lia)].
      rewrite Hat, Z.eqb_refl. unfold key_at. rewrite Hat. exact Hle.
Qed.

(** *** Given heaps *)

Lemma orderedb_spec prio hp size :
  orderedb prio hp size = true <-> ordered prio hp size.
Proof.
  unfold orderedb, ordered. rewrite forallb_forall. split.
  - intros Hall i Hi.
    specialize (Hall (Z.to_nat i)). rewrite Z2Nat.id in Hall by lia.
    apply Z.leb_le. apply Hall. apply in_seq. lia.
  - intros Hord j Hj. apply in_seq in Hj.
    apply Z.leb_le. apply Hord. lia.
Qed.

Lemma orderedb_false prio hp size :
  orderedb prio hp size = false -> ~ ordered prio hp size.
Proof.
  intros Hb Hord. apply orderedb_spec in Hord. congruence.
Qed.

Lemma returned_or_eq {A : Type} (d : A) (o : outcome A) :
  is_returned o = true -> o = Returned (returned_or d o).
Proof. destruct o; simpl; intros Hr; (reflexivity || discriminate). Qed.

Lemma fresh_well_formed : well_formed tile_cap fresh.
Proof.
  apply make_well_formed; rewrite length_replicate; reflexivity.
Qed.

Example twice_stored_slots :
  take 7 (heap twice_stored) = [0; 3; 1; 4; 0; 5; 0]
  /\ size_ twice_stored = 6.
Proof. vm_compute. split; reflexivity. Qed.

Example pop_six_stored :
  fst <$> pop six_stored = Returned (3, 10).
Proof. vm_compute. reflexivity. Qed.

Lemma well_formed_check capacity h :
  (Z.of_nat (length (priorities h)) =? capacity)
  && (Z.of_nat (length (heap h)) =? heap_slots)
  && (0 <=? size_ h) && (size_ h <=? heap_slots - 1)
  && forallb (fun x => (0 <=? x) && (x <? capacity)) (entries h) = true ->
  well_formed capacity h.
Proof.
  intros Hb.
  repeat (apply andb_prop in Hb as [Hb ?]).
  split.
  - apply Z.eqb_eq. assumption.
  - apply Z.eqb_eq. assumption.
  - split; apply Z.leb_le; assumption.
  - apply Forall_forall. intros x Hx.
    match goal with H : forallb _ _ = true |- _ => rename H into Hall end.
    rewrite forallb_forall in Hall.
    specialize (Hall x ltac:(apply list_elem_of_In; exact Hx)).
    apply andb_prop in Hall as [Hlo Hhi].
    split; [apply Z.leb_le|apply Z.ltb_lt]; assumption.
Qed.

(** *** The three operations, as their callers see them *)

(** C1, as amended: [insert] throws exactly when 2499 entries are
    pending, one less than the 2500 slots of the slot array and whatever
    [capacity] is; below that it returns with one more entry pending, and
    so does every sequence of inserts that ends with at most 2499 entries
    pending. *)
Theorem insert_capacity (capacity : Z) (h : heap_t) (index priority : Z) :
  well_formed capacity h -> 0 <= index < capacity ->
  (insert h index priority = Thrown "Max heap" <-> size_ h = heap_slots - 1)
  /\ (size_ h < heap_slots - 1 ->
      exists h', insert h index priority = Returned h'
                 /\ size_ h' = size_ h + 1
                 /\ well_formed capacity h')
  /\ (forall l : list (Z * Z),
        Forall (fun e => 0 <= e.1 < capacity) l ->
        size_ h + Z.of_nat (length l) <= heap_slots - 1 ->
        exists h', insert_all h l = Returned h'
                   /\ size_ h' = size_ h + Z.of_nat (length l)
                   /\ well_formed capacity h').
Proof.
  intros Hwf Hi. split; [apply insert_full|]. split.
  - intros Hroom.
    destruct (insert_spec capacity h index priority Hwf Hi Hroom)
      as (h' & Hins & _ & Hsize & _ & Hwf' & _).
    exists h'. split; [exact Hins|]. split; [exact Hsize|exact Hwf'].
  - intros l Hl Hroom. apply insert_all_spec; assumption.
Qed.

Lemma insert_capacity_witness :
  well_formed tile_cap fresh /\ 0 <= 5 < tile_cap
  /\ exists h', insert fresh 5 7 = Returned h'
                /\ size_ h' = size_ fresh + 1
                /\ well_formed tile_cap h'.
Proof.
  assert (Hi : 0 <= 5 < tile_cap) by (unfold tile_cap; lia).
  split; [exact fresh_well_formed|]. split; [exact Hi|].
  apply (proj1 (proj2 (insert_capacity tile_cap fresh 5 7 fresh_well_formed Hi))).
  vm_compute. reflexivity.
Defined.

(** C1, as stated, fails: after 2499 inserts into a fresh instance of the
    path finder's heap, far fewer than the 40000 tiles, the next insert
    throws. *)
Lemma insert_throws_below_tile_cap :
  let pending := (fun i => (Z.of_nat i, Z.of_nat i)) <$> seq 0 (Z.to_nat 2499) in
  exists h,
    insert_all fresh pending = Returned h
    /\ size_ h = 2499
    /\ size_ h < tile_cap
    /\ insert h 2499 2499 = Thrown "Max heap".
Proof.
  intros pending.
  destruct (insert_all_spec tile_cap pending fresh fresh_well_formed)
    as (h & Hall & Hsize & _).
  - apply Forall_forall. intros e He.
    apply list_elem_of_fmap in He as (i & -> & Hi).
    apply elem_of_seq in Hi. simpl. unfold tile_cap. lia.
  - unfold pending. rewrite length_fmap, length_seq. simpl. unfold heap_slots. lia.
  - unfold pending in Hsize. rewrite length_fmap, length_seq in Hsize.
    simpl in Hsize.
    exists h. split; [exact Hall|]. split; [lia|].
    split; [unfold tile_cap; lia|].
    apply insert_full. unfold heap_slots. lia.
Qed.

(** C6: [pop] on a non-empty, ordered heap returns the entry of the
    root with its priority, which no remaining entry undercuts; the
    remaining entries are the old ones without the returned one, there is
    exactly one entry less, and the heap is ordered again. *)
Theorem pop_returns_least (capacity : Z) (h : heap_t) :
  well_formed capacity h -> 1 <= size_ h -> heap_ordered h ->
  exists index least h',
    pop h = Returned ((index, least), h')
    /\ priority h index = Returned least
    /\ index :: entries h' ≡ₚ entries h
    /\ (forall x, x ∈ entries h' ->
          exists p, priority h' x = Returned p /\ least <= p)
    /\ size_ h' = size_ h - 1
    /\ heap_ordered h'
    /\ well_formed capacity h'.
Proof.
  intros Hwf Hne Hord.
  destruct (pop_spec capacity h Hwf Hne Hord)
    as (hp' & Hpop & Hlen & Hperm & Hordered).
  pose proof (well_formed_indices_ok _ _ Hwf) as Hok.
  destruct Hwf as [Hp Hh Hsz He]. unfold heap_slots in *.
  assert (Hs : 0 <= size_ h < Z.of_nat (length (heap h))) by lia.
  eexists _, _, _. split; [exact Hpop|].
  unfold entries. cbn [priorities heap size_].
  split; [|split; [exact Hperm|split; [|split; [reflexivity|split]]]].
  - unfold priority, key_at. apply read_in_range.
    apply (indices_ok_slot _ _ (size_ h)); (assumption || lia).
  - intros x Hx.
    assert (Hin : x ∈ entries h) by (rewrite <- Hperm; right; exact Hx).
    exists (at_ (priorities h) x). split.
    + unfold priority. cbn [priorities]. apply read_in_range.
      unfold indices_ok in Hok. rewrite Forall_forall in Hok.
      apply Hok. exact Hin.
    + apply (elem_of_entries (heap h) (size_ h) x Hs) in Hin
        as (i & Hi & <-).
      apply (root_is_least (key_at (priorities h) (heap h)) (size_ h) Hord i Hi).
  - exact Hordered.
  - split; cbn [priorities heap size_].
    + exact Hp.
    + unfold heap_slots. lia.
    + unfold heap_slots. lia.
    + unfold entries. cbn [heap size_].
      rewrite <- Hperm in He. apply Forall_cons in He as [_ He]. exact He.
Qed.

Lemma pop_returns_least_witness :
  well_formed tile_cap six_stored /\ 1 <= size_ six_stored
  /\ heap_ordered six_stored
  /\ exists index least h',
       pop six_stored = Returned ((index, least), h')
       /\ priority six_stored index = Returned least
       /\ index :: entries h' ≡ₚ entries six_stored
       /\ (forall x, x ∈ entries h' ->
             exists p, priority h' x = Returned p /\ least <= p)
       /\ size_ h' = size_ six_stored - 1
       /\ heap_ordered h'
       /\ well_formed tile_cap h'.
Proof.
  assert (Hwf : well_formed tile_cap six_stored)
    by (apply well_formed_check; vm_compute; reflexivity).
  assert (Hne : 1 <= size_ six_stored) by (vm_compute; discriminate).
  assert (Hord : heap_ordered six_stored)
    by (apply orderedb_spec; vm_compute; reflexivity).
  split; [exact Hwf|]. split; [exact Hne|]. split; [exact Hord|].
  exact (pop_returns_least tile_cap six_stored Hwf Hne Hord).
Defined.

(** C7, as amended: on an ordered heap that holds the index in exactly one
    slot (other indices may be stored any number of times), [update] of
    that index to a priority not above its current one sets that priority,
    stores the same indices as before, and leaves the heap ordered; all it
    does after the write is one [bubble_up] from the slot of the index. *)
Theorem update_decrease (capacity : Z) (h : heap_t) (index old new_priority : Z) :
  well_formed capacity h -> heap_ordered h -> stored_once h index ->
  priority h index = Returned old -> new_priority <= old ->
  exists h' ii,
    update h index new_priority = Returned h'
    /\ priority h' index = Returned new_priority
    /\ (forall other, other <> index -> priority h' other = priority h other)
    /\ entries h' ≡ₚ entries h
    /\ size_ h' = size_ h
    /\ heap_ordered h'
    /\ well_formed capacity h'
    /\ read (heap h) ii = Returned index
    /\ update h index new_priority
       = (prio ← write (priorities h) index new_priority;
          bubble_up {| priorities := prio; heap := heap h; size_ := size_ h |}
                    ii).
Proof.
  intros Hwf Hord Honce Hold Hle.
  pose proof (stored_once_elem _ _ _ Hwf Honce) as Hin.
  pose proof (well_formed_indices_ok _ _ Hwf) as Hok.
  assert (Hidx : 0 <= index < Z.of_nat (length (priorities h))).
  { unfold indices_ok in Hok. rewrite Forall_forall in Hok.
    apply Hok. exact Hin. }
  assert (Hold' : old = at_ (priorities h) index).
  { unfold priority in Hold. rewrite read_in_range in Hold by exact Hidx.
    congruence. }
  destruct (update_spec capacity h index new_priority Hwf Hord Honce
              ltac:(lia))
    as (ii & hp' & Hii & Hat & Hbub & Hupd & Hlen & Hperm & Hordered).
  destruct Hwf as [Hp Hh Hsz He]. unfold heap_slots in *.
  eexists _, ii. split; [exact Hupd|].
  unfold priority, entries, heap_ordered. cbn [priorities heap size_].
  split; [|split; [|split; [exact Hperm|split;
    [reflexivity|split; [exact Hordered|split; [|split]]]]]].
  - rewrite read_in_range by (rewrite length_insert; exact Hidx).
    f_equal. apply at_write_same. exact Hidx.
  - intros other Hne. unfold read.
    destruct (Z.ltb_spec other 0); [reflexivity|].
    rewrite list_lookup_insert_ne by lia. reflexivity.
  - split; cbn [priorities heap size_].
    + rewrite length_insert. exact Hp.
    + unfold heap_slots. lia.
    + unfold heap_slots. lia.
    + unfold entries. cbn [heap size_]. rewrite Hperm. exact He.
  - rewrite read_in_range by lia. f_equal. exact Hat.
  - rewrite Hbub. rewrite (write_in_range (priorities h)) by exact Hidx.
    reflexivity.
Qed.

Lemma update_decrease_witness :
  entries other_twice = [3; 3; 5; 4]
  /\ well_formed tile_cap other_twice /\ heap_ordered other_twice
  /\ stored_once other_twice 5 /\ ~ NoDup (entries other_twice)
  /\ priority other_twice 5 = Returned 20 /\ 1 <= 20
  /\ exists h',
       update other_twice 5 1 = Returned h'
       /\ priority h' 5 = Returned 1
       /\ entries h' ≡ₚ entries other_twice
       /\ heap_ordered h'.
Proof.
  assert (Hwf : well_formed tile_cap other_twice)
    by (apply well_formed_check; vm_compute; reflexivity).
  assert (Hord : heap_ordered other_twice)
    by (apply orderedb_spec; vm_compute; reflexivity).
  assert (Honce : stored_once other_twice 5).
  { exists 3. split; [vm_compute; intuition discriminate|].
    split; [vm_compute; reflexivity|].
    intros other Hother Hat.
    assert (Hsize : size_ other_twice = 4) by (vm_compute; reflexivity).
    rewrite Hsize in Hother.
    assert (Hcases : other = 1 \/ other = 2 \/ other = 3 \/ other = 4) by lia.
    destruct Hcases as [-> | [-> | [-> | ->]]];
      try reflexivity; exfalso; revert Hat; vm_compute; discriminate. }
  assert (Hdup : ~ NoDup (entries other_twice))
    by (apply (bool_decide_unpack _); vm_compute; exact I).
  assert (Hold : priority other_twice 5 = Returned 20)
    by (vm_compute; reflexivity).
  assert (Hle : 1 <= 20) by lia.
  split; [vm_compute; reflexivity|].
  split; [exact Hwf|]. split; [exact Hord|]. split; [exact Honce|].
  split; [exact Hdup|]. split; [exact Hold|]. split; [exact Hle|].
  destruct (update_decrease tile_cap other_twice 5 20 1 Hwf Hord Honce Hold Hle)
    as (h' & ii & Hupd & Hnew & _ & Hperm & _ & Hord' & _).
  exists h'. split; [exact Hupd|]. split; [exact Hnew|].
  split; [exact Hperm|exact Hord'].
Defined.

(** C7, as stated, fails on a heap that stores an index twice: the
    instance reached by six inserts, two of them of index 0 at priority
    50, is ordered and contains index 0; [update (0, 25)] rewrites the
    priority both copies share but sifts only the copy in slot 6, and the
    copy in slot 4 is left below its parent, index 1 at priority 28. *)
Lemma update_twice_stored_counterexample :
  insert_all fresh [(3, 10); (1, 28); (4, 30); (0, 50); (5, 90); (0, 50)]
  = Returned twice_stored
  /\ well_formed tile_cap twice_stored
  /\ heap_ordered twice_stored
  /\ 0 ∈ entries twice_stored
  /\ priority twice_stored 0 = Returned 50
  /\ exists h',
       update twice_stored 0 25 = Returned h'
       /\ take 7 (heap h') = [0; 3; 1; 0; 0; 5; 4]
       /\ key (priorities h') (heap h') 2 = Returned 28
       /\ key (priorities h') (heap h') 4 = Returned 25
       /\ ~ heap_ordered h'.
Proof.
  split; [apply returned_or_eq; vm_compute; reflexivity|].
  split; [apply well_formed_check; vm_compute; reflexivity|].
  split; [apply orderedb_spec; vm_compute; reflexivity|].
  split; [apply (bool_decide_unpack _); vm_compute; exact I|].
  split; [vm_compute; reflexivity|].
  exists (returned_or fresh (update twice_stored 0 25)).
  split; [apply returned_or_eq; vm_compute; reflexivity|].
  split; [vm_compute; reflexivity|].
  split; [vm_compute; reflexivity|].
  split; [vm_compute; reflexivity|].
  apply orderedb_false. vm_compute. reflexivity.
Qed.

(** *** More on [insert], [update] and [pop] *)

Lemma priority_after_write (prio : list Z) (index priority other : Z) :
  other <> index ->
  read (<[Z.to_nat index := priority]> prio) other = read prio other
  \/ index < 0.
Proof.
  intros Hne. destruct (Z.ltb_spec index 0) as [Hneg|Hpos]; [right; exact Hneg|].
  left. unfold read. destruct (Z.ltb_spec other 0); [reflexivity|].
  rewrite list_lookup_insert_ne by lia. reflexivity.
Qed.

(** X15: on an ordered heap with room, [insert] of an index that is not
    stored yet returns an ordered heap that stores this index besides the
    old ones, each still once; the index has the priority given, and no
    other priority changes. *)
Theorem insert_fresh (capacity : Z) (h : heap_t) (index priority : Z) :
  well_formed capacity h -> heap_ordered h -> NoDup (entries h) ->
  0 <= index < capacity -> index ∉ entries h ->
  size_ h < heap_slots - 1 ->
  exists h',
    insert h index priority = Returned h'
    /\ Heap.priority h' index = Returned priority
    /\ (forall other, other <> index ->
          Heap.priority h' other = Heap.priority h other)
    /\ entries h' ≡ₚ index :: entries h
    /\ NoDup (entries h')
    /\ heap_ordered h'
    /\ well_formed capacity h'.
Proof.
  intros Hwf Hord Hnd Hi Hfresh Hroom.
  destruct (insert_spec capacity h index priority Hwf Hi Hroom)
    as (h' & Hins & Hprio & _ & Hperm & Hwf' & Hord').
  exists h'. split; [exact Hins|].
  destruct Hwf as [Hp _ _ _].
  unfold Heap.priority. rewrite Hprio.
  split; [|split; [|split; [exact Hperm|split; [|split]]]].
  - rewrite read_in_range by (rewrite length_insert; lia).
    f_equal. apply at_write_same. lia.
  - intros other Hne.
    destruct (priority_after_write (priorities h) index priority other Hne)
      as [Heq|Hneg]; [exact Heq|lia].
  - rewrite Hperm. apply NoDup_cons. split; assumption.
  - apply Hord'; assumption.
  - exact Hwf'.
Qed.

Lemma insert_fresh_witness :
  well_formed tile_cap six_stored /\ heap_ordered six_stored
  /\ NoDup (entries six_stored) /\ 0 <= 9 < tile_cap
  /\ (9 ∉ entries six_stored) /\ size_ six_stored < heap_slots - 1
  /\ exists h',
       insert six_stored 9 20 = Returned h'
       /\ Heap.priority h' 9 = Returned 20
       /\ entries h' ≡ₚ 9 :: entries six_stored
       /\ heap_ordered h'.
Proof.
  assert (Hwf : well_formed tile_cap six_stored)
    by (apply well_formed_check; vm_compute; reflexivity).
  assert (Hord : heap_ordered six_stored)
    by (apply orderedb_spec; vm_compute; reflexivity).
  assert (Hnd : NoDup (entries six_stored))
    by (apply (bool_decide_unpack _); vm_compute; exact I).
  assert (Hi : 0 <= 9 < tile_cap) by (vm_compute; intuition discriminate).
  assert (Hfresh : 9 ∉ entries six_stored)
    by (apply (bool_decide_unpack _); vm_compute; exact I).
  assert (Hroom : size_ six_stored < heap_slots - 1) by (vm_compute; reflexivity).
  split; [exact Hwf|]. split; [exact Hord|]. split; [exact Hnd|].
  split; [exact Hi|]. split; [exact Hfresh|]. split; [exact Hroom|].
  destruct (insert_fresh tile_cap six_stored 9 20 Hwf Hord Hnd Hi Hfresh Hroom)
    as (h' & Hins & Hprio & _ & Hperm & _ & Hord' & _).
  exists h'. split; [exact Hins|]. split; [exact Hprio|].
  split; [exact Hperm|exact Hord'].
Defined.

(** X16: [update] of an index that is not stored returns the heap as it
    was; not even the priority of that index is written. *)
Theorem update_absent (capacity : Z) (h : heap_t) (index priority : Z) :
  well_formed capacity h -> index ∉ entries h ->
  update h index priority = Returned h.
Proof.
  intros [_ Hh Hsz _] Habs. unfold heap_slots in *.
  apply update_scan_absent; [lia|].
  intros i Hi Hslot. apply Habs.
  apply elem_of_entries; [lia|]. exists i. split; [lia|exact Hslot].
Qed.

Lemma update_absent_witness :
  well_formed tile_cap six_stored /\ (9 ∉ entries six_stored)
  /\ update six_stored 9 1 = Returned six_stored.
Proof.
  assert (Hwf : well_formed tile_cap six_stored)
    by (apply well_formed_check; vm_compute; reflexivity).
  assert (Habs : 9 ∉ entries six_stored)
    by (apply (bool_decide_unpack _); vm_compute; exact I).
  split; [exact Hwf|]. split; [exact Habs|].
  exact (update_absent tile_cap six_stored 9 1 Hwf Habs).
Defined.

(** X17: [insert] checks the occupancy before it touches an array and
    checks nothing else: on a full heap it throws whatever the index is,
    and below that an index outside [priorities] is undefined behaviour. *)
Theorem insert_bad_index (capacity : Z) (h : heap_t) (index priority : Z) :
  well_formed capacity h -> capacity <= index ->
  insert h index priority
  = if size_ h =? heap_slots - 1 then Thrown "Max heap" else Undefined.
Proof.
  intros [Hp _ _ _] Hi.
  assert (Hw : write (priorities h) index priority = Undefined).
  { unfold write.
    destruct (Z.ltb_spec index (Z.of_nat (length (priorities h)))); [lia|].
    destruct (0 <=? index); reflexivity. }
  unfold insert. rewrite Hw.
  destruct (size_ h =? heap_slots - 1); reflexivity.
Qed.

Lemma insert_bad_index_witness :
  well_formed tile_cap fresh /\ tile_cap <= 40000
  /\ insert fresh 40000 1 = Undefined.
Proof.
  assert (Hi : tile_cap <= 40000) by (vm_compute; discriminate).
  split; [exact fresh_well_formed|]. split; [exact Hi|].
  exact (insert_bad_index tile_cap fresh 40000 1 fresh_well_formed Hi).
Defined.



Lemma pop_not_thrown h what : pop h <> Thrown what.
Proof.
  unfold pop.
  plain_case (read_plain (heap h) 1) x1.
  plain_case (read_plain (priorities h) x1) p1.
  plain_case (read_plain (heap h) (size_ h)) xn.
  plain_case (write_plain (heap h) 1 xn) hp.
  destruct (pop_loop _ _ _ _ _) as [hp'| | |] eqn:Hrun;
    run_bind; try discriminate.
  exfalso. eapply pop_loop_not_thrown. exact Hrun.
Qed.



Lemma pop_step (capacity : Z) (h : heap_t) :
  well_formed capacity h -> 1 <= size_ h -> heap_ordered h ->
  exists h',
    pop h = Returned ((at_ (heap h) 1, key_at (priorities h) (heap h) 1), h')
    /\ priorities h' = priorities h
    /\ size_ h' = size_ h - 1
    /\ at_ (heap h) 1 :: entries h' ≡ₚ entries h
    /\ (forall x, x ∈ entries h' ->
          key_at (priorities h) (heap h) 1 <= at_ (priorities h) x)
    /\ heap_ordered h'
    /\ well_formed capacity h'.
Proof.
  intros Hwf Hne Hord.
  destruct (pop_spec capacity h Hwf Hne Hord)
    as (hp' & Hpop & Hlen & Hperm & Hordered).
  destruct Hwf as [Hp Hh Hsz He]. unfold heap_slots in *.
  assert (Hs : 0 <= size_ h < Z.of_nat (length (heap h))) by lia.
  eexists. split; [exact Hpop|].
  unfold entries, heap_ordered. cbn [priorities heap size_].
  split; [reflexivity|]. split; [reflexivity|]. split; [exact Hperm|].
  split; [|split; [exact Hordered|]].
  - intros x Hx.
    assert (Hin : x ∈ entries h) by (rewrite <- Hperm; right; exact Hx).
    apply (elem_of_entries (heap h) (size_ h) x Hs) in Hin as (i & Hi & <-).
    apply (root_is_least (key_at (priorities h) (heap h)) (size_ h) Hord i Hi).
  - split; cbn [priorities heap size_].
    + exact Hp.
    + unfold heap_slots. lia.
    + unfold heap_slots. lia.
    + unfold entries. cbn [heap size_].
      rewrite <- Hperm in He. apply Forall_cons in He as [_ He]. exact He.
Qed.

(** X19: [pop] does not look at the occupancy: on an empty heap it either
    runs into undefined behaviour or returns the index that slot 1 holds
    together with the priority recorded for that index, and leaves the
    occupancy at [2^64 - 1]; it reports nothing. *)
Theorem pop_empty (h : heap_t) :
  Z.of_nat (length (heap h)) = heap_slots -> size_ h = 0 ->
  pop h = Undefined
  \/ exists index p h',
       pop h = Returned ((index, p), h')
       /\ read (heap h) 1 = Returned index
       /\ priority h index = Returned p
       /\ priorities h' = priorities h
       /\ size_ h' = 18446744073709551615
       /\ empty h' = false.
Proof.
  intros Hlen Hsz.
  pose proof (pop_not_out_of_fuel h Hlen) as Hfuel.
  pose proof (pop_not_thrown h) as Hthrown.
  destruct (pop h) as [[[index p] h']| what | |] eqn:Hpop.
  - right. exists index, p, h'. split; [reflexivity|].
    revert Hpop. unfold pop, priority.
    destruct (read_plain (heap h) 1) as [[x1 Hx1] | Hx1]; rewrite Hx1;
      run_bind; [|discriminate].
    destruct (read_plain (priorities h) x1) as [[p1 Hp1] | Hp1]; rewrite Hp1;
      run_bind; [|discriminate].
    plain_case (read_plain (heap h) (size_ h)) xn.
    plain_case (write_plain (heap h) 1 xn) hp.
    destruct (pop_loop _ _ _ _ _) as [hp'| | |]; run_bind; try discriminate.
    intros [= <- <- <-]. cbn [priorities size_]. rewrite Hsz.
    split; [reflexivity|]. split; [exact Hp1|].
    split; [reflexivity|]. split; reflexivity.
  - exfalso. apply (Hthrown what). reflexivity.
  - left. reflexivity.
  - exfalso. apply Hfuel. reflexivity.
Qed.

Lemma pop_empty_witness :
  Z.of_nat (length (heap stale)) = heap_slots /\ size_ stale = 0
  /\ exists h',
       pop stale = Returned ((1, 5), h')
       /\ read (heap stale) 1 = Returned 1
       /\ priority stale 1 = Returned 5
       /\ size_ h' = 18446744073709551615
       /\ empty h' = false.
Proof.
  assert (Hlen : Z.of_nat (length (heap stale)) = heap_slots)
    by (vm_compute; reflexivity).
  assert (Hsz : size_ stale = 0) by reflexivity.
  split; [exact Hlen|]. split; [exact Hsz|].
  destruct (pop_empty stale Hlen Hsz)
    as [Hund | (index & p & h' & Hpop & Hslot & Hprio & _ & Hsize & Hempty)].
  - exfalso. revert Hund. vm_compute. discriminate.
  - assert (Hindex : index = 1).
    { revert Hslot. vm_compute. intros [= <-]. reflexivity. }
    subst index.
    assert (Hp : p = 5).
    { revert Hprio. vm_compute. intros [= <-]. reflexivity. }
    subst p.
    exists h'. split; [exact Hpop|].
    split; [exact Hslot|]. split; [exact Hprio|].
    split; [exact Hsize|exact Hempty].
Defined.

(** X20: once the occupancy is [2^64 - 1], as a [pop] on an empty heap
    leaves it, [insert] does not return: the occupancy wraps to 0, and
    [bubble_up] from slot 0 compares the slot with itself for ever,
    however many rounds it is given. *)
Theorem insert_after_underflow (h : heap_t) (index priority : Z) :
  size_ h = 18446744073709551615 ->
  (insert h index priority = OutOfFuel \/ insert h index priority = Undefined)
  /\ (forall fuel prio hp hp', bubble_up_loop fuel prio hp 0 <> Returned hp').
Proof.
  intros Hsz. split.
  - unfold insert, heap_slots. rewrite Hsz.
    change (18446744073709551615 =? 2500 - 1) with false.
    change (usize (18446744073709551615 + 1)) with 0.
    destruct (write_plain (priorities h) index priority) as [[prio ->] | ->];
      run_bind; [|right; reflexivity].
    destruct (write_plain (heap h) 0 index) as [[hp ->] | ->];
      run_bind; [|right; reflexivity].
    unfold bubble_up. cbn [priorities heap size_].
    destruct (bubble_up_loop_zero (S (Z.to_nat 0)) prio hp) as [-> | ->];
      [left|right]; reflexivity.
  - intros fuel prio hp hp'.
    destruct (bubble_up_loop_zero fuel prio hp) as [-> | ->]; discriminate.
Qed.

Lemma insert_after_underflow_witness :
  size_ (returned_or ((0, 0), stale) (pop stale)).2 = 18446744073709551615
  /\ insert (returned_or ((0, 0), stale) (pop stale)).2 7 1 = OutOfFuel.
Proof.
  assert (Hsz : size_ (returned_or ((0, 0), stale) (pop stale)).2
                = 18446744073709551615) by (vm_compute; reflexivity).
  split; [exact Hsz|].
  destruct (proj1 (insert_after_underflow _ 7 1 Hsz)) as [Hout|Hund].
  - exact Hout.
  - exfalso. revert Hund. vm_compute. discriminate.
Defined.

Lemma empty_entries (capacity : Z) (h : heap_t) :
  well_formed capacity h -> (empty h = true <-> entries h = []).
Proof.
  intros [_ Hh Hsz _]. unfold empty, entries, heap_slots in *.
  rewrite Z.eqb_eq. split.
  - intros ->. unfold entries_of. rewrite take_0. reflexivity.
  - intros Hnil.
    pose proof (length_entries (heap h) (size_ h) ltac:(lia)) as Hlen.
    rewrite Hnil in Hlen. simpl in Hlen. lia.
Qed.

Lemma ordered_single prio hp : ordered prio hp 1.
Proof. intros i Hi. lia. Qed.

(** X21: on an empty heap, [insert] followed by [pop] gives back the pair
    inserted and leaves the heap empty again. *)
Theorem insert_then_pop (capacity : Z) (h : heap_t) (index priority : Z) :
  well_formed capacity h -> empty h = true -> 0 <= index < capacity ->
  exists h1 h2,
    insert h index priority = Returned h1
    /\ empty h1 = false
    /\ pop h1 = Returned ((index, priority), h2)
    /\ empty h2 = true.
Proof.
  intros Hwf Hempty Hi.
  assert (Hsz : size_ h = 0) by (apply Z.eqb_eq; exact Hempty).
  apply (empty_entries _ _ Hwf) in Hempty.
  destruct (insert_spec capacity h index priority Hwf Hi
              ltac:(unfold heap_slots; lia))
    as (h1 & Hins & Hprio & Hsize & Hperm & Hwf1 & _).
  rewrite Hempty in Hperm. apply Permutation_singleton_r in Hperm.
  assert (Hord1 : heap_ordered h1).
  { unfold heap_ordered. replace (size_ h1) with 1 by lia. apply ordered_single. }
  destruct (pop_step capacity h1 Hwf1 ltac:(lia) Hord1)
    as (h2 & Hpop & _ & Hsize2 & _).
  assert (Hroot : at_ (heap h1) 1 = index).
  { destruct Hwf1 as [_ Hh1 Hsz1 _]. unfold heap_slots in *.
    assert (Hin : at_ (heap h1) 1 ∈ entries h1).
    { apply elem_of_entries; [lia|]. exists 1. split; [lia|reflexivity]. }
    rewrite Hperm in Hin. apply list_elem_of_singleton in Hin. exact Hin. }
  exists h1, h2. split; [exact Hins|].
  split; [unfold empty; apply Z.eqb_neq; lia|].
  split.
  - rewrite Hpop. unfold key_at. rewrite Hroot, Hprio.
    rewrite at_write_same by (destruct Hwf as [Hp _ _ _]; lia).
    reflexivity.
  - unfold empty. apply Z.eqb_eq. lia.
Qed.

Lemma insert_then_pop_witness :
  well_formed tile_cap fresh /\ empty fresh = true /\ 0 <= 8 < tile_cap
  /\ exists h1 h2,
       insert fresh 8 33 = Returned h1
       /\ empty h1 = false
       /\ pop h1 = Returned ((8, 33), h2)
       /\ empty h2 = true.
Proof.
  assert (He : empty fresh = true) by reflexivity.
  assert (Hi : 0 <= 8 < tile_cap) by (vm_compute; intuition discriminate).
  split; [exact fresh_well_formed|]. split; [exact He|]. split; [exact Hi|].
  exact (insert_then_pop tile_cap fresh 8 33 fresh_well_formed He Hi).
Defined.

Lemma pop_all_spec (capacity : Z) (n : nat) : forall h,
  well_formed capacity h -> heap_ordered h -> Z.of_nat n = size_ h ->
  exists l h',
    pop_all n h = Returned (l, h')
    /\ empty h' = true
    /\ priorities h' = priorities h
    /\ l.*1 ≡ₚ entries h
    /\ Forall (fun e => e.2 = at_ (priorities h) e.1) l
    /\ StronglySorted Z.le l.*2.
Proof.
  induction n as [|n IH]; intros h Hwf Hord Hn.
  - exists [], h. cbn [pop_all]. split; [reflexivity|].
    split; [unfold empty; apply Z.eqb_eq; lia|]. split; [reflexivity|].
    assert (He : entries h = []).
    { apply (empty_entries _ _ Hwf). unfold empty. apply Z.eqb_eq. lia. }
    rewrite He. split; [reflexivity|]. split; constructor.
  - destruct (pop_step capacity h Hwf ltac:(lia) Hord)
      as (h1 & Hpop & Hprio1 & Hsize1 & Hperm1 & Hleast & Hord1 & Hwf1).
    destruct (IH h1 Hwf1 Hord1 ltac:(lia))
      as (l & h' & Hall & Hempty & Hprio & Hperm & Hpairs & Hsorted).
    exists ((at_ (heap h) 1, key_at (priorities h) (heap h) 1) :: l), h'.
    cbn [pop_all]. rewrite Hpop. run_bind. cbn beta iota.
    rewrite Hall. run_bind. cbn beta iota.
    split; [reflexivity|]. split; [exact Hempty|].
    split; [congruence|].
    rewrite Hprio1 in Hpairs.
    split; [|split].
    + cbn [fmap list_fmap fst]. rewrite <- Hperm1. apply perm_skip. exact Hperm.
    + apply Forall_cons. split; [reflexivity|exact Hpairs].
    + cbn [fmap list_fmap snd]. constructor; [exact Hsorted|].
      apply Forall_forall. intros p Hp.
      apply list_elem_of_fmap in Hp as (e & -> & He).
      rewrite Forall_forall in Hpairs. rewrite (Hpairs e He).
      apply Hleast. rewrite <- Hperm.
      apply list_elem_of_fmap. exists e. split; [reflexivity|exact He].
Qed.

(** X22: popping an ordered heap until it is empty returns its entries in
    order of priority: the indices returned are the stored ones, each comes
    with its priority, and the priorities never decrease. *)
Theorem pop_all_sorted (capacity : Z) (h : heap_t) :
  well_formed capacity h -> heap_ordered h ->
  exists l h',
    pop_all (Z.to_nat (size_ h)) h = Returned (l, h')
    /\ empty h' = true
    /\ l.*1 ≡ₚ entries h
    /\ Forall (fun e => Heap.priority h e.1 = Returned e.2) l
    /\ StronglySorted Z.le l.*2.
Proof.
  intros Hwf Hord.
  pose proof (well_formed_indices_ok _ _ Hwf) as Hok.
  destruct (pop_all_spec capacity (Z.to_nat (size_ h)) h Hwf Hord)
    as (l & h' & Hall & Hempty & _ & Hperm & Hpairs & Hsorted).
  { destruct Hwf as [_ _ Hsz _]. lia. }
  exists l, h'. split; [exact Hall|]. split; [exact Hempty|].
  split; [exact Hperm|]. split; [|exact Hsorted].
  apply Forall_forall. intros e He.
  rewrite Forall_forall in Hpairs. rewrite (Hpairs e He).
  unfold Heap.priority. apply read_in_range.
  unfold indices_ok in Hok. rewrite Forall_forall in Hok. apply Hok.
  unfold entries in Hperm. rewrite <- Hperm.
  apply list_elem_of_fmap. exists e. split; [reflexivity|exact He].
Qed.

Lemma pop_all_sorted_witness :
  well_formed tile_cap six_stored /\ heap_ordered six_stored
  /\ fst <$> pop_all 6 six_stored
     = Returned [(3, 10); (1, 28); (4, 30); (0, 50); (7, 50); (5, 90)]
  /\ exists l h',
       pop_all (Z.to_nat (size_ six_stored)) six_stored = Returned (l, h')
       /\ empty h' = true
       /\ l.*1 ≡ₚ entries six_stored
       /\ StronglySorted Z.le l.*2.
Proof.
  assert (Hwf : well_formed tile_cap six_stored)
    by (apply well_formed_check; vm_compute; reflexivity).
  assert (Hord : heap_ordered six_stored)
    by (apply orderedb_spec; vm_compute; reflexivity).
  split; [exact Hwf|]. split; [exact Hord|].
  split; [vm_compute; reflexivity|].
  destruct (pop_all_sorted tile_cap six_stored Hwf Hord)
    as (l & h' & Hall & Hempty & Hperm & _ & Hsorted).
  exists l, h'. split; [exact Hall|]. split; [exact Hempty|].
  split; [exact Hperm|exact Hsorted].
Defined.

Lemma insert_Returned h index priority h' :
  insert h index priority = Returned h' ->
  size_ h <> heap_slots - 1 /\ 0 <= index < Z.of_nat (length (priorities h)).
Proof.
  unfold insert.
  destruct (Z.eqb_spec (size_ h) (heap_slots - 1)) as [Hfull|Hroom];
    [discriminate|].
  destruct (write (priorities h) index priority) as [prio| | |] eqn:Hw;
    run_bind; try discriminate.
  intros _. apply write_Returned in Hw as [Hi _]. split; assumption.
Qed.

Lemma clear_well_formed capacity h :
  well_formed capacity h -> well_formed capacity (clear h).
Proof.
  intros [Hp Hh Hsz He]. split; cbn [clear priorities heap size_].
  - exact Hp.
  - exact Hh.
  - unfold heap_slots. lia.
  - unfold entries, entries_of. cbn [heap size_]. rewrite take_0. constructor.
Qed.

(** X23: used the way a search uses it (an index is inserted only while it
    is not stored, [pop] is called only on a non-empty heap, [update] only
    lowers the priority of a stored index, [clear] at any time), the heap
    always has its arrays at their declared sizes, at most 2499 entries,
    every index stored at most once, and the min-heap order. *)
Theorem legal_use_keeps_heap (capacity : Z) (h : heap_t) :
  legal capacity h ->
  well_formed capacity h /\ heap_ordered h /\ NoDup (entries h).
Proof.
  induction 1 as [p0 h0 Hp0 Hh0
                 | h index priority h' Hl IH Hfresh Hins
                 | h e h' Hl IH Hne Hpop
                 | h index old priority h' Hl IH Hin Hold Hle Hupd
                 | h Hl IH].
  - split; [apply make_well_formed; assumption|].
    split.
    + intros i Hi. cbn [make size_] in Hi. lia.
    + unfold entries, entries_of. cbn [make heap size_]. rewrite take_0.
      constructor.
  - destruct IH as (Hwf & Hord & Hnd).
    destruct (insert_Returned _ _ _ _ Hins) as [Hroom Hi].
    assert (Hi' : 0 <= index < capacity) by (destruct Hwf as [Hp _ _ _]; lia).
    assert (Hroom' : size_ h < heap_slots - 1)
      by (destruct Hwf as [_ _ Hsz _]; lia).
    destruct (insert_spec capacity h index priority Hwf Hi' Hroom')
      as (h'' & Hins' & _ & _ & Hperm & Hwf' & Hord').
    assert (h'' = h') as -> by congruence.
    split; [exact Hwf'|]. split; [apply Hord'; assumption|].
    rewrite Hperm. apply NoDup_cons. split; assumption.
  - destruct IH as (Hwf & Hord & Hnd).
    assert (Hsz : 1 <= size_ h).
    { unfold empty in Hne. apply Z.eqb_neq in Hne.
      destruct Hwf as [_ _ Hsz _]. lia. }
    destruct (pop_step capacity h Hwf Hsz Hord)
      as (h'' & Hpop' & _ & _ & Hperm & _ & Hord' & Hwf').
    assert (h'' = h') as -> by congruence.
    split; [exact Hwf'|]. split; [exact Hord'|].
    rewrite <- Hperm in Hnd. apply NoDup_cons in Hnd as [_ Hnd]. exact Hnd.
  - destruct IH as (Hwf & Hord & Hnd).
    pose proof (well_formed_indices_ok _ _ Hwf) as Hok.
    assert (Hidx : 0 <= index < Z.of_nat (length (priorities h))).
    { unfold indices_ok in Hok. rewrite Forall_forall in Hok.
      apply Hok. exact Hin. }
    assert (Hold' : old = at_ (priorities h) index).
    { unfold Heap.priority in Hold. rewrite read_in_range in Hold by exact Hidx.
      congruence. }
    pose proof (nodup_stored_once _ _ _ Hwf Hnd Hin) as Honce.
    destruct (update_spec capacity h index priority Hwf Hord Honce ltac:(lia))
      as (ii & hp' & _ & _ & _ & Hupd' & Hlen & Hperm & Hordered).
    assert (h' = {| priorities := <[Z.to_nat index := priority]> (priorities h);
                    heap := hp'; size_ := size_ h |}) as -> by congruence.
    destruct Hwf as [Hp Hh Hsz He].
    split; [split; cbn [priorities heap size_]|split].
    + rewrite length_insert. exact Hp.
    + rewrite Hlen. exact Hh.
    + exact Hsz.
    + unfold entries. cbn [heap size_]. rewrite Hperm. exact He.
    + exact Hordered.
    + unfold entries. cbn [heap size_]. rewrite Hperm. exact Hnd.
  - destruct IH as (Hwf & Hord & Hnd).
    split; [apply clear_well_formed; exact Hwf|]. split.
    + intros i Hi. cbn [clear size_] in Hi. lia.
    + unfold entries, entries_of. cbn [clear heap size_]. rewrite take_0.
      constructor.
Qed.

Lemma legal_use_keeps_heap_witness :
  insert small 3 10 = Returned small1
  /\ insert small1 1 28 = Returned small2
  /\ insert small2 4 30 = Returned small3
  /\ update small3 4 5 = Returned small4
  /\ pop small4 = Returned ((4, 5), small5)
  /\ entries small5 = [3; 1]
  /\ legal 16 small5
  /\ well_formed 16 small5 /\ heap_ordered small5 /\ NoDup (entries small5).
Proof.
  assert (H1 : insert small 3 10 = Returned small1)
    by (apply returned_or_eq; vm_compute; reflexivity).
  assert (H2 : insert small1 1 28 = Returned small2)
    by (apply returned_or_eq; vm_compute; reflexivity).
  assert (H3 : insert small2 4 30 = Returned small3)
    by (apply returned_or_eq; vm_compute; reflexivity).
  assert (H4 : update small3 4 5 = Returned small4)
    by (apply returned_or_eq; vm_compute; reflexivity).
  assert (H5 : pop small4 = Returned ((4, 5), small5)).
  { assert (Hp : (returned_or ((0, 0), small) (pop small4)).1 = (4, 5))
      by (vm_compute; reflexivity).
    rewrite <- Hp. unfold small5. rewrite <- surjective_pairing.
    apply returned_or_eq. vm_compute. reflexivity. }
  assert (Hl : legal 16 small5).
  { apply (legal_pop 16 small4 (4, 5) small5); [|vm_compute; reflexivity|exact H5].
    apply (legal_update 16 small3 4 30 5 small4);
      [|apply (bool_decide_unpack _); vm_compute; exact I
       |vm_compute; reflexivity|lia|exact H4].
    apply (legal_insert 16 small2 4 30 small3);
      [|apply (bool_decide_unpack _); vm_compute; exact I|exact H3].
    apply (legal_insert 16 small1 1 28 small2);
      [|apply (bool_decide_unpack _); vm_compute; exact I|exact H2].
    apply (legal_insert 16 small 3 10 small1);
      [|apply (bool_decide_unpack _); vm_compute; exact I|exact H1].
    apply legal_make; rewrite length_replicate; reflexivity. }
  split; [exact H1|]. split; [exact H2|]. split; [exact H3|].
  split; [exact H4|]. split; [exact H5|].
  split; [vm_compute; reflexivity|].
  split; [exact Hl|].
  exact (legal_use_keeps_heap 16 small5 Hl).
Defined.

End HeapFacts.

(** ** The isolate holder *)

Module IsolateHolderFacts.

Import IsolateHolder.




Lemma disposed_step (s : holder) (c : call) :
  isolate s = None -> step s c = s.
Proof.
  intros Hgone. destruct s as [i cl]. cbn [isolate] in Hgone. subst i.
  destruct c; reflexivity.
Qed.

Lemma disposed_run (cs : list call) : forall s,
  isolate s = None -> run s cs = s.
Proof.
  induction cs as [|c cs IH]; intros s Hgone; [reflexivity|].
  cbn [run foldl]. rewrite disposed_step by exact Hgone. apply IH. exact Hgone.
Qed.

(** X25: after a [Dispose], whatever is called next, the holder makes no
    further call ([ScheduleTask] drops its task without running or queueing
    it), [GetIsolate] returns the empty pointer, and every further
    [Dispose] throws "Isolate is already disposed". *)
Theorem disposed_for_good (s : holder) (cs : list call) :
  let disposed := (Dispose s).2 in
  run disposed cs = disposed
  /\ GetIsolate (run disposed cs) = None
  /\ (Dispose (run disposed cs)).1 = Thrown "Isolate is already disposed".
Proof.
  intros disposed.
  assert (Hgone : isolate disposed = None).
  { unfold disposed, Dispose. destruct (isolate s); reflexivity. }
  rewrite (disposed_run cs disposed Hgone).
  split; [reflexivity|]. split; [exact Hgone|].
  unfold Dispose. rewrite Hgone. reflexivity.
Qed.

End IsolateHolderFacts.

(** ** Script handles *)

Module ScriptHandleFacts.

Import ScriptHandle.

Lemma released_step {V : Type} (task : nat -> Z -> outcome V) (h : handle)
    (c : call) :
  script h = None -> step task h c = h.
Proof.
  intros Hgone. destruct h as [sc d]. cbn [script] in Hgone. subst sc.
  destruct c; reflexivity.
Qed.

Lemma released_run {V : Type} (task : nat -> Z -> outcome V) (cs : list call) :
  forall h, script h = None -> run task h cs = h.
Proof.
  induction cs as [|c cs IH]; intros h Hgone; [reflexivity|].
  cbn [run foldl]. rewrite released_step by exact Hgone. apply IH. exact Hgone.
Qed.

(** X26: [Release] and a [Run] whose options set [release] both leave the
    handle released, the latter whatever the task it started returns or
    throws; from then on, whatever is called, nothing more is dispatched
    and every [Run] throws "Script has been released". *)
Theorem released_for_good {V : Type} (task : nat -> Z -> outcome V)
    (h : handle) (o : options) (cs : list call)
    (maybe_options : option options) :
  release o = true -> timeout o <> JsOther ->
  let after_run := (Run task h (Some o)).2 in
  let after_release := Release h in
  script after_run = None
  /\ run task after_run cs = after_run
  /\ Run task (run task after_run cs) maybe_options
     = (Thrown "Script has been released", after_run)
  /\ run task after_release cs = after_release
  /\ Run task (run task after_release cs) maybe_options
     = (Thrown "Script has been released", after_release).
Proof.
  intros Hrel Htimeout after_run after_release.
  assert (Hgone : script after_run = None).
  { unfold after_run, Run. destruct (script h) as [sc|] eqn:Hs; [|exact Hs].
    destruct (timeout o); try contradiction; cbn [snd script];
      rewrite Hrel; reflexivity. }
  split; [exact Hgone|].
  rewrite (released_run task cs after_run Hgone).
  split; [reflexivity|].
  split; [unfold Run; rewrite Hgone; reflexivity|].
  rewrite (released_run task cs after_release eq_refl).
  split; reflexivity.
Qed.

Lemma released_for_good_witness :
  let h := {| script := Some 1%nat; dispatched := [] |} in
  let o := {| release := true; timeout := JsUint32 250 |} in
  let task := fun (_ : nat) (_ : Z) => Thrown (A := Z) "Invalid context" in
  release o = true /\ timeout o <> JsOther
  /\ Run task h (Some o)
     = (Thrown "Invalid context",
        {| script := None; dispatched := [(1%nat, 250)] |})
  /\ (Run task (Run task h (Some o)).2 None).1
     = Thrown "Script has been released".
Proof.
  intros h o task.
  assert (Hrel : release o = true) by reflexivity.
  assert (Htimeout : timeout o <> JsOther) by discriminate.
  split; [exact Hrel|]. split; [exact Htimeout|]. split; [reflexivity|].
  destruct (released_for_good task h o [] None Hrel Htimeout)
    as (_ & _ & Hrun & _).
  cbn [run foldl] in Hrun. rewrite Hrun. reflexivity.
Defined.



End ScriptHandleFacts.
